(** * Idempotency-Key middleware: a shallow embedding and its properties

    The development follows the Go package [idempotency]:
    - [storage.go]: the [Storage] interface, [memoryStorage] and
      [redisStorage];
    - [idempotency.go]: [RequestStatus], [state] and the [Verify]
      middleware;
    - [idempotency_test.go]: [incompleteStorage] and the four cases of
      [TestVerify].

    Every method of a store runs under the store's lock (or is one command
    of the key-value service), so a method is one atomic transition of the
    store.  A store is therefore a state type with three transition
    functions, and [Verify] is a function from a store and a request to the
    new store and the list of calls it makes, in order.  The
    [context.Context] argument of the methods carries cancellation only
    and is left out. *)

From Stdlib Require Import ZArith Lia.
From stdpp Require Import base option list strings gmap fin_maps.

Open Scope Z_scope.

(** ** Errors ([fmt.Errorf], [errors.Is]) *)

(** A Go [error] built by [fmt.Errorf], with the format string as it stands
    in the source and the operands of its [%q] verbs.  Without a [%w] verb
    [fmt.Errorf] returns an error that wraps nothing ([errorString]); with
    one it returns an error that wraps the operand ([wrapError]).  A [nil]
    error is [None : option error]. *)
Inductive error : Type :=
| errorString (format : string) (args : list string)
| wrapError (format : string) (args : list string) (err : error).

#[global] Instance error_eq_dec : EqDecision error.
Proof. solve_decision. Defined.

(** [errors.Unwrap] *)
Definition Unwrap (e : error) : option error :=
  match e with
  | errorString _ _ => None
  | wrapError _ _ err => Some err
  end.

(** [errors.Is(err, target)]: [target] occurs in the chain of [err]. *)
Fixpoint errors_Is (err target : error) : bool :=
  bool_decide (err = target) ||
  match err with
  | errorString _ _ => false
  | wrapError _ _ e => errors_Is e target
  end.

(** ** HTTP status codes used by the package *)

Definition StatusOK : Z := 200.
Definition StatusNoContent : Z := 204.
Definition StatusBadRequest : Z := 400.
Definition StatusConflict : Z := 409.
Definition StatusInternalServerError : Z := 500.

(** ** [RequestStatus] and the [Storage] interface *)

Record RequestStatus : Type := mkRequestStatus { InProcess : bool }.

#[global] Instance RequestStatus_eq_dec : EqDecision RequestStatus.
Proof. solve_decision. Defined.

Definition completed : RequestStatus := {| InProcess := false |}.
Definition in_process : RequestStatus := {| InProcess := true |}.

(** [Storage]: each method takes the store, the key, and returns the store
    after the call with the method's results.  [Get] returns the pair of
    a [RequestStatus] pointer and an error, a [nil] pointer being [None]. *)
Record Storage (S : Type) : Type := mkStorage {
  Add : S -> string -> S * option error;
  Get : S -> string -> S * (option RequestStatus * option error);
  Complete : S -> string -> S * option error
}.
Arguments Add {S} _ _ _.
Arguments Get {S} _ _ _.
Arguments Complete {S} _ _ _.

(** ** [memoryStorage] *)

Module Memory.

Record memoryStorage : Type := mk { storage : gmap string RequestStatus }.

Definition NewMemoryStorage : memoryStorage := {| storage := ∅ |}.

(** [m.storage[key] = &RequestStatus{InProcess: true}; return nil] *)
Definition Add (m : memoryStorage) (key : string) : memoryStorage * option error :=
  ({| storage := <[key := {| InProcess := true |}]> (storage m) |}, None).

(** [return m.storage[key], nil] *)
Definition Get (m : memoryStorage) (key : string)
  : memoryStorage * (option RequestStatus * option error) :=
  (m, (storage m !! key, None)).

(** [m.storage[key] = &RequestStatus{InProcess: false}; return nil] *)
Definition Complete (m : memoryStorage) (key : string) : memoryStorage * option error :=
  ({| storage := <[key := {| InProcess := false |}]> (storage m) |}, None).

Definition store : Storage memoryStorage :=
  mkStorage memoryStorage Add Get Complete.

End Memory.

(** ** [incompleteStorage] (from the test file) *)

Module Incomplete.

(** The struct embeds a [memoryStorage]: [Add] and [Get] are promoted
    from it, [Complete] is overridden. *)
Record incompleteStorage : Type := mk { memoryStorage : Memory.memoryStorage }.

Definition newIncompleteStorage : incompleteStorage :=
  {| memoryStorage := Memory.NewMemoryStorage |}.

Definition Add (f : incompleteStorage) (key : string) : incompleteStorage * option error :=
  let '(m, err) := Memory.Add (memoryStorage f) key in
  ({| memoryStorage := m |}, err).

Definition Get (f : incompleteStorage) (key : string)
  : incompleteStorage * (option RequestStatus * option error) :=
  let '(m, res) := Memory.Get (memoryStorage f) key in
  ({| memoryStorage := m |}, res).

(** [return nil] *)
Definition Complete (f : incompleteStorage) (key : string) : incompleteStorage * option error :=
  (f, None).

Definition store : Storage incompleteStorage :=
  mkStorage incompleteStorage Add Get Complete.

End Incomplete.

(** ** The key-value service behind [redisStorage] *)

Module Redis.

(** [redis.KeepTTL] *)
Definition KeepTTL : Z := -1.

(** [redis.Nil], the reply of [GET] for a key that does not exist *)
Definition Nil : error := errorString "redis: nil" [].

Record entry : Type := mkEntry { value : string; expireAt : option Z }.

(** Modelled from the spec: the shared key-value service, that is the
    go-redis client and the server it talks to, is not part of the
    repository.  The spec asks of it an atomic set-if-absent with a
    configured expiry, a read, and an overwrite that keeps the original
    expiry; these are the commands [SET key value PX/EX d NX] (or [SETNX]
    for no expiry), [GET key] and [SET key value KEEPTTL] that the three
    client calls of the source send.  The service has a clock [now], a
    table of entries with an optional expiry instant, and [fault]: when
    it is [Some e] the service cannot be reached and every call returns
    [e].  Durations are kept exact (the client rounds them to
    milliseconds or seconds). *)
Record Client : Type := mkClient {
  now : Z;
  db : gmap string entry;
  fault : option error
}.

(** Modelled from the spec: the service discards a record once its time
    to live has passed; [live] is the entry of [key] that has not expired,
    if any. *)
Definition live (c : Client) (key : string) : option entry :=
  match db c !! key with
  | Some e =>
      match expireAt e with
      | Some t => if now c <? t then Some e else None
      | None => Some e
      end
  | None => None
  end.

Definition store_entry (c : Client) (key : string) (e : entry) : Client :=
  {| now := now c; db := <[key := e]> (db c); fault := fault c |}.

(** The passing of time on the service's clock. *)
Definition elapse (d : Z) (c : Client) : Client :=
  {| now := now c + d; db := db c; fault := fault c |}.

Definition invalid_expire : error := errorString "ERR invalid expire time in set" [].

(** Modelled from the spec: the atomic set-if-absent with an expiry,
    [client.SetNX(ctx, key, value, expiration).Result()].  An expiry of
    zero or [KeepTTL] writes a record without expiry; the service refuses
    any other negative one. *)
Definition client_SetNX (c : Client) (key value : string) (expiration : Z)
  : Client * (bool * option error) :=
  match fault c with
  | Some e => (c, (false, Some e))
  | None =>
      if (expiration <? 0) && negb (expiration =? KeepTTL) then
        (c, (false, Some invalid_expire))
      else
        match live c key with
        | Some _ => (c, (false, None))
        | None =>
            let t := if 0 <? expiration then Some (now c + expiration) else None in
            (store_entry c key {| value := value; expireAt := t |}, (true, None))
        end
  end.

(** Modelled from the spec: the read, [client.Get(ctx, key).Result()],
    with the error [redis.Nil] for a key without a live record. *)
Definition client_Get (c : Client) (key : string) : Client * (string * option error) :=
  match fault c with
  | Some e => (c, ("", Some e))
  | None =>
      match live c key with
      | Some e => (c, (value e, None))
      | None => (c, ("", Some Nil))
      end
  end.

(** Modelled from the spec: the overwrite,
    [client.Set(ctx, key, value, expiration).Result()]; with [KeepTTL] the
    expiry instant of the live record is kept, and a key without a live
    record gets a record without expiry. *)
Definition client_Set (c : Client) (key value : string) (expiration : Z)
  : Client * (string * option error) :=
  match fault c with
  | Some e => (c, ("", Some e))
  | None =>
      let t :=
        if 0 <? expiration then Some (now c + expiration)
        else if expiration =? KeepTTL then
          match live c key with
          | Some e => expireAt e
          | None => None
          end
        else None in
      (store_entry c key {| value := value; expireAt := t |}, ("OK", None))
  end.

(** The remaining time to live of a key, as the command [PTTL] reports
    it: [-2] for a key that does not exist, [-1] for a key without
    expiry. *)
Definition PTTL (c : Client) (key : string) : Z :=
  match live c key with
  | None => -2
  | Some e =>
      match expireAt e with
      | None => -1
      | Some t => t - now c
      end
  end.

(** *** [redisStorage] *)

Record redisStorage : Type := mkRedisStorage {
  client : Client;
  expiry : Z;
  keyPrefix : string
}.

Definition with_client (s : redisStorage) (c : Client) : redisStorage :=
  {| client := c; expiry := expiry s; keyPrefix := keyPrefix s |}.

Definition RedisStorageOption : Type := redisStorage -> redisStorage.

Definition WithKeyPrefix (prefix : string) : RedisStorageOption :=
  fun rs => {| client := client rs; expiry := expiry rs; keyPrefix := prefix |}.

(** A [nil] option is [None] and is skipped. *)
Definition NewRedisStorage (client : Client) (expiry : Z)
    (opts : list (option RedisStorageOption)) : redisStorage :=
  let s := {| client := client; expiry := expiry; keyPrefix := "idemp:" |} in
  fold_left (fun s opt => match opt with Some opt => opt s | None => s end) opts s.

Definition Add (s : redisStorage) (key : string) : redisStorage * option error :=
  let '(c, (res, err)) := client_SetNX (client s) (keyPrefix s +:+ key) "in-process" (expiry s) in
  match err with
  | Some err =>
      (with_client s c, Some (wrapError "failed to set the key %q in redis: %w" [key] err))
  | None =>
      if negb res then
        (with_client s c, Some (errorString "the key %q already exists in redis" [key]))
      else (with_client s c, None)
  end.

Definition Get (s : redisStorage) (key : string)
  : redisStorage * (option RequestStatus * option error) :=
  let '(c, (res, err)) := client_Get (client s) (keyPrefix s +:+ key) in
  match err with
  | Some err =>
      if errors_Is err Nil then (with_client s c, (None, None))
      else (with_client s c,
            (None, Some (wrapError "failed to get the key %q from redis: %w" [key] err)))
  | None =>
      (with_client s c, (Some {| InProcess := bool_decide (res = "in-process") |}, None))
  end.

Definition Complete (s : redisStorage) (key : string) : redisStorage * option error :=
  let '(c, (_, err)) := client_Set (client s) (keyPrefix s +:+ key) "done" KeepTTL in
  match err with
  | Some err =>
      (with_client s c, Some (wrapError "failed to update the key %q in redis: %w" [key] err))
  | None => (with_client s c, None)
  end.

Definition store : Storage redisStorage :=
  mkStorage redisStorage Add Get Complete.

End Redis.

(** ** Requests and the calls of the middleware *)

(** [http.Header] is a map from a canonical header name to its values;
    [Header.Get] returns the first value, or the empty string when the
    header is missing.  The name used by the package is already in
    canonical form. *)
Record Request : Type := mkRequest { Header : gmap string (list string) }.

Definition Header_Get (h : gmap string (list string)) (key : string) : string :=
  match h !! key with
  | Some (v :: _) => v
  | _ => ""
  end.

Definition Header_Set (h : gmap string (list string)) (key value : string)
  : gmap string (list string) :=
  <[key := [value]]> h.

(** What [Verify] calls, in the order it calls it: the three methods of
    the store, the wrapped handler [next.ServeHTTP(w, r)], the restorer
    [s.restorer(idempotencyKey, w, r)] and the error responder
    [s.errResponder(err, status, w, r)]. *)
Inductive call : Type :=
| StorageGet (key : string)
| StorageAdd (key : string)
| StorageComplete (key : string)
| NextServeHTTP (r : Request)
| Restorer (idempotencyKey : string) (r : Request)
| ErrResponder (err : error) (status : Z) (r : Request).

Definition is_handler (c : call) : bool :=
  match c with NextServeHTTP _ => true | _ => false end.

Definition is_restorer (c : call) : bool :=
  match c with Restorer _ _ => true | _ => false end.

Definition is_storage_call (c : call) : bool :=
  match c with
  | StorageGet _ | StorageAdd _ | StorageComplete _ => true
  | _ => false
  end.

Definition responds_with (status : Z) (c : call) : bool :=
  match c with ErrResponder _ st _ => bool_decide (st = status) | _ => false end.

Fixpoint count (p : call -> bool) (l : list call) : nat :=
  match l with
  | [] => 0%nat
  | c :: l => ((if p c then 1 else 0) + count p l)%nat
  end.

(** ** [state] and [Verify] *)

(** The restorer and the error responder are collaborators whose
    invocations are recorded as [call]s; the store is the one field that
    decides the control flow. *)
Record state (S : Type) : Type := New { storage : Storage S }.
Arguments New {S} _.
Arguments storage {S} _.

(** The handler returned by [Verify(next)], applied to a request, from the
    store [σ]: the store afterwards and the calls made. *)
Definition Verify {S : Type} (s : state S) (σ : S) (r : Request) : S * list call :=
  let idempotencyKey := Header_Get (Header r) "Idempotency-Key" in
  if bool_decide (idempotencyKey = "") then
    (σ, [ErrResponder (errorString "no Idempotency-Key set" []) StatusBadRequest r])
  else
    let '(σ1, (status, err)) := Get (storage s) σ idempotencyKey in
    match err with
    | Some err =>
        (σ1, [StorageGet idempotencyKey;
              ErrResponder
                (wrapError "could not process request to get Idempotency-Key: %w" [] err)
                StatusInternalServerError r])
    | None =>
        match status with
        | None =>
            let '(σ2, err) := Add (storage s) σ1 idempotencyKey in
            match err with
            | Some err =>
                (σ2, [StorageGet idempotencyKey; StorageAdd idempotencyKey;
                      ErrResponder
                        (wrapError "could not process request to save Idempotency-Key: %w" [] err)
                        StatusInternalServerError r])
            | None =>
                let '(σ3, err) := Complete (storage s) σ2 idempotencyKey in
                match err with
                | Some err =>
                    (σ3, [StorageGet idempotencyKey; StorageAdd idempotencyKey;
                          NextServeHTTP r; StorageComplete idempotencyKey;
                          ErrResponder (wrapError "could not complete request: %w" [] err)
                            StatusInternalServerError r])
                | None =>
                    (σ3, [StorageGet idempotencyKey; StorageAdd idempotencyKey;
                          NextServeHTTP r; StorageComplete idempotencyKey])
                end
            end
        | Some status =>
            if InProcess status then
              (σ1, [StorageGet idempotencyKey;
                    ErrResponder (errorString "request already in progress" [])
                      StatusConflict r])
            else
              (σ1, [StorageGet idempotencyKey; Restorer idempotencyKey r])
        end
    end.

(** Requests served one after the other, each to its end. *)
Fixpoint serve_all {S : Type} (s : state S) (σ : S) (rs : list Request)
  : S * list (list call) :=
  match rs with
  | [] => (σ, [])
  | r :: rs =>
      let '(σ1, cs) := Verify s σ r in
      let '(σ2, css) := serve_all s σ1 rs in
      (σ2, cs :: css)
  end.

(** ** Requests served at the same time

    [net/http] serves every request on a goroutine of its own.  Between
    two calls of the store a goroutine touches nothing that is shared, so
    an execution of several requests is an interleaving of the steps below;
    each step makes one call (with the branching that follows it). *)

Inductive pc : Type := AtGet | AtAdd | AtServe | AtComplete | Returned.

Record goroutine : Type := mkGoroutine {
  g_request : Request;
  g_pc : pc;
  g_calls : list call
}.

Definition spawn (r : Request) : goroutine :=
  {| g_request := r; g_pc := AtGet; g_calls := [] |}.

Definition goto (g : goroutine) (p : pc) (cs : list call) : goroutine :=
  {| g_request := g_request g; g_pc := p; g_calls := g_calls g ++ cs |}.

Definition step {S : Type} (s : state S) (σ : S) (g : goroutine) : S * goroutine :=
  let r := g_request g in
  let idempotencyKey := Header_Get (Header r) "Idempotency-Key" in
  match g_pc g with
  | AtGet =>
      if bool_decide (idempotencyKey = "") then
        (σ, goto g Returned
              [ErrResponder (errorString "no Idempotency-Key set" []) StatusBadRequest r])
      else
        let '(σ1, (status, err)) := Get (storage s) σ idempotencyKey in
        match err with
        | Some err =>
            (σ1, goto g Returned
                   [StorageGet idempotencyKey;
                    ErrResponder
                      (wrapError "could not process request to get Idempotency-Key: %w" [] err)
                      StatusInternalServerError r])
        | None =>
            match status with
            | None => (σ1, goto g AtAdd [StorageGet idempotencyKey])
            | Some status =>
                if InProcess status then
                  (σ1, goto g Returned
                         [StorageGet idempotencyKey;
                          ErrResponder (errorString "request already in progress" [])
                            StatusConflict r])
                else
                  (σ1, goto g Returned [StorageGet idempotencyKey; Restorer idempotencyKey r])
            end
        end
  | AtAdd =>
      let '(σ2, err) := Add (storage s) σ idempotencyKey in
      match err with
      | Some err =>
          (σ2, goto g Returned
                 [StorageAdd idempotencyKey;
                  ErrResponder
                    (wrapError "could not process request to save Idempotency-Key: %w" [] err)
                    StatusInternalServerError r])
      | None => (σ2, goto g AtServe [StorageAdd idempotencyKey])
      end
  | AtServe => (σ, goto g AtComplete [NextServeHTTP r])
  | AtComplete =>
      let '(σ3, err) := Complete (storage s) σ idempotencyKey in
      match err with
      | Some err =>
          (σ3, goto g Returned
                 [StorageComplete idempotencyKey;
                  ErrResponder (wrapError "could not complete request: %w" [] err)
                    StatusInternalServerError r])
      | None => (σ3, goto g Returned [StorageComplete idempotencyKey])
      end
  | Returned => (σ, g)
  end.

(** A goroutine run alone for [n] steps. *)
Fixpoint steps {S : Type} (s : state S) (n : nat) (σ : S) (g : goroutine) : S * goroutine :=
  match n with
  | O => (σ, g)
  | Datatypes.S n => let '(σ1, g1) := step s σ g in steps s n σ1 g1
  end.

(** The goroutines of the requests in flight, and a schedule: the list of
    the indices of the goroutines that take the next step, in order. *)
Definition sched_step {S : Type} (s : state S) (σgs : S * list goroutine) (i : nat)
  : S * list goroutine :=
  let '(σ, gs) := σgs in
  match gs !! i with
  | Some g => let '(σ1, g1) := step s σ g in (σ1, <[i := g1]> gs)
  | None => (σ, gs)
  end.

Definition run {S : Type} (s : state S) (σ : S) (gs : list goroutine) (schedule : list nat)
  : S * list goroutine :=
  fold_left (sched_step s) schedule (σ, gs).

(** The store after each step of a schedule, the first store included. *)
Fixpoint history {S : Type} (s : state S) (σ : S) (gs : list goroutine) (schedule : list nat)
  : list S :=
  match schedule with
  | [] => [σ]
  | i :: schedule =>
      let '(σ1, gs1) := sched_step s (σ, gs) i in
      σ :: history s σ1 gs1 schedule
  end.

Definition all_calls (gs : list goroutine) : list call :=
  concat (map g_calls gs).

(** ** A response recorder, for the scenarios of [TestVerify] *)

(** [httptest.ResponseRecorder], as far as the test looks at it: the
    status code, which the first [WriteHeader] fixes. *)
Record ResponseRecorder : Type := mkRecorder { Code : Z; wroteHeader : bool }.

Definition NewRecorder : ResponseRecorder := {| Code := 200; wroteHeader := false |}.

Definition WriteHeader (code : Z) (w : ResponseRecorder) : ResponseRecorder :=
  if wroteHeader w then w else {| Code := code; wroteHeader := true |}.

Record collaborators : Type := mkCollaborators {
  next : ResponseRecorder -> Request -> ResponseRecorder;
  restorer : string -> ResponseRecorder -> Request -> ResponseRecorder;
  errResponder : error -> Z -> ResponseRecorder -> Request -> ResponseRecorder
}.

(** The collaborators of the test: the handler writes 200, the restorer
    writes 204, and the default error responder is [http.Error], which
    writes the status it is given (and the text of the error). *)
Definition test_collaborators : collaborators :=
  {| next := fun w _ => WriteHeader StatusOK w;
     restorer := fun _ w _ => WriteHeader StatusNoContent w;
     errResponder := fun _ status w _ => WriteHeader status w |}.

Definition respond (c : collaborators) (cs : list call) (w : ResponseRecorder)
  : ResponseRecorder :=
  fold_left (fun w cl =>
    match cl with
    | NextServeHTTP r => next c w r
    | Restorer key r => restorer c key w r
    | ErrResponder err status r => errResponder c err status w r
    | _ => w
    end) cs w.

(** The loop of the test: [repeated] times the same request, each with a
    new recorder; the status code of the last response. *)
Definition last_status {S : Type} (s : state S) (σ : S) (r : Request) (repeated : nat) : Z :=
  let '(_, css) := serve_all s σ (replicate repeated r) in
  Code (respond test_collaborators (List.last css []) NewRecorder).

Definition request_with_key (key : string) : Request :=
  {| Header := Header_Set ∅ "Idempotency-Key" key |}.

Definition request_without_key : Request := {| Header := ∅ |}.

(** ** Claims one after the other, statuses, scenarios *)

(** [n] calls of [Add] for one key; the store's lock (or the service)
    puts simultaneous calls in some order, and as the key is the same for
    all of them every order reads the same. *)
Fixpoint claim_all {S : Type} (st : Storage S) (σ : S) (key : string) (n : nat)
  : S * list (option error) :=
  match n with
  | O => (σ, [])
  | Datatypes.S n =>
      let '(σ1, err) := Add st σ key in
      let '(σ2, errs) := claim_all st σ1 key n in
      (σ2, err :: errs)
  end.

(** The place of a status on the way absent, in process, completed. *)
Definition rank (st : option RequestStatus) : nat :=
  match st with
  | None => 0
  | Some st => if InProcess st then 1 else 2
  end.

(** The status codes answered through the error responder. *)
Definition answer_status (c : call) : option Z :=
  match c with ErrResponder _ status _ => Some status | _ => None end.

Definition answers (cs : list call) : list Z := omap answer_status cs.

(** An expiry that the service accepts: none, a positive one, or
    [KeepTTL]. *)
Definition valid_expiration (d : Z) : Prop := 0 <= d \/ d = Redis.KeepTTL.

(** A service that can be reached and holds nothing, a store on it with
    an expiry of 1000 and the default prefix; the same store after a
    claim of the key [deadbeef], and after its completion; and a store on
    a service that cannot be reached. *)
Definition service0 : Redis.Client :=
  {| Redis.now := 0; Redis.db := ∅; Redis.fault := None |}.

Definition redis0 : Redis.redisStorage := Redis.NewRedisStorage service0 1000 [].

Definition redis_claimed : Redis.redisStorage := (Redis.Add redis0 "deadbeef").1.

Definition redis_completed : Redis.redisStorage :=
  (Redis.Complete redis_claimed "deadbeef").1.

Definition connection_refused : error :=
  errorString "dial tcp 127.0.0.1:6379: connect: connection refused" [].

Definition redis_down : Redis.redisStorage :=
  Redis.NewRedisStorage
    {| Redis.now := 0; Redis.db := ∅; Redis.fault := Some connection_refused |} 1000 [].

Definition redis_later (d : Z) (s : Redis.redisStorage) : Redis.redisStorage :=
  Redis.with_client s (Redis.elapse d (Redis.client s)).

(** A request with the key [deadbeef] that has called [Get] and found
    nothing. *)
Definition found_nothing : goroutine :=
  goto (spawn (request_with_key "deadbeef")) AtAdd [StorageGet "deadbeef"].

(** ** Requests on the distributed store while time passes *)

(** What happens next: the goroutine [i] takes a step, or the clock of the
    service advances by [d]. *)
Inductive action : Type :=
| Step (i : nat)
| Tick (d : Z).

Definition act (σgs : Redis.redisStorage * list goroutine) (a : action)
  : Redis.redisStorage * list goroutine :=
  match a with
  | Step i => sched_step (New Redis.store) σgs i
  | Tick d => (redis_later d σgs.1, σgs.2)
  end.

Definition run_redis (σ : Redis.redisStorage) (gs : list goroutine) (acts : list action)
  : Redis.redisStorage * list goroutine :=
  fold_left act acts (σ, gs).

Fixpoint elapsed (acts : list action) : Z :=
  match acts with
  | [] => 0
  | Step _ :: acts => elapsed acts
  | Tick d :: acts => d + elapsed acts
  end.

Definition tick_ok (a : action) : bool :=
  match a with Step _ => true | Tick d => 0 <=? d end.

(** The clock does not go back, and a record written with the expiry [E]
    during [acts] does not expire before their end. *)
Definition within_expiry (E : Z) (acts : list action) : bool :=
  forallb tick_ok acts && ((E <=? 0) || (elapsed acts <? E)).

Definition key_of (g : goroutine) : string :=
  Header_Get (Header (g_request g)) "Idempotency-Key".

(** How many times a goroutine has executed the wrapped handler. *)
Definition handled (g : goroutine) : nat := count is_handler (g_calls g).

Fixpoint total (f : goroutine -> nat) (gs : list goroutine) : nat :=
  match gs with
  | [] => 0
  | g :: gs => (f g + total f gs)%nat
  end.

(** The executions of the wrapped handler by the requests with [key]. *)
Definition handler_runs (key : string) (gs : list goroutine) : nat :=
  total (fun g => if bool_decide (key_of g = key) then handled g else 0%nat) gs.

(** *** The invariant of the distributed store: one claimant per record

    [E] is the expiry of the store, [T0] the time at which the requests
    start, [P] the prefix and [key] the key under study. *)

(** A record that outlasts the requests: it has no expiry, or it was
    written with the expiry [E] at [T0] or later. *)
Definition lasting (E T0 : Z) (e : Redis.entry) : Prop :=
  Redis.expireAt e = None
  \/ (0 < E /\ exists t : Z, Redis.expireAt e = Some t /\ T0 + E <= t).

(** A request with [key] whose [Add] returned nil: it is at the handler,
    at [Complete], or has executed the handler. *)
Definition winner (key : string) (g : goroutine) : bool :=
  bool_decide (key_of g = key)
  && (match g_pc g with AtServe | AtComplete => true | _ => false end
      || (0 <? handled g)%nat).

Definition winners (key : string) (gs : list goroutine) : nat :=
  total (fun g => if winner key g then 1%nat else 0%nat) gs.

(** The executions of the handler that a request with [key] has behind
    it, by the place it is at. *)
Definition on_track (key : string) (g : goroutine) : Prop :=
  key_of g = key ->
  match g_pc g with
  | AtGet | AtAdd | AtServe => handled g = 0%nat
  | AtComplete => handled g = 1%nat
  | Returned => (handled g <= 1)%nat
  end.

Definition one_winner (E T0 : Z) (P key : string)
    (σ : Redis.redisStorage) (gs : list goroutine) : Prop :=
  Redis.fault (Redis.client σ) = None
  /\ Redis.expiry σ = E
  /\ Redis.keyPrefix σ = P
  /\ T0 <= Redis.now (Redis.client σ)
  /\ Forall (on_track key) gs
  /\ (winners key gs = 0%nat
      \/ (winners key gs = 1%nat
          /\ exists e : Redis.entry,
               Redis.db (Redis.client σ) !! (P +:+ key) = Some e /\ lasting E T0 e)).

(** ** [New] and its options

    [New(storage, opts...)] builds the state from the store and the two
    responders: the restorer, which by default does nothing, and the error
    responder, which by default is [http.Error].  An option is a function
    on the state that sets one of them; a [nil] option is skipped. *)

Record responders : Type := mkResponders {
  the_restorer : string -> ResponseRecorder -> Request -> ResponseRecorder;
  the_errResponder : error -> Z -> ResponseRecorder -> Request -> ResponseRecorder
}.

Definition StateOption : Type := responders -> responders.

Definition WithRestorer
    (f : string -> ResponseRecorder -> Request -> ResponseRecorder) : StateOption :=
  fun s => {| the_restorer := f; the_errResponder := the_errResponder s |}.

Definition WithErrorResponder
    (f : error -> Z -> ResponseRecorder -> Request -> ResponseRecorder) : StateOption :=
  fun s => {| the_restorer := the_restorer s; the_errResponder := f |}.

(** The responders of [New(storage)]: [func(...) {}] and
    [http.Error(w, err.Error(), status)], of which the recorder keeps the
    status. *)
Definition default_responders : responders :=
  {| the_restorer := fun _ w _ => w;
     the_errResponder := fun _ status w _ => WriteHeader status w |}.

Definition New_responders (opts : list (option StateOption)) : responders :=
  fold_left (fun s opt => match opt with Some opt => opt s | None => s end)
    opts default_responders.

(** The handler [s.Verify(next)] at work on a response writer: the calls of
    [Verify] go to the wrapped handler and to the responders of the
    state. *)
Definition ServeHTTP {S : Type} (s : state S) (h : responders)
    (next : ResponseRecorder -> Request -> ResponseRecorder)
    (σ : S) (w : ResponseRecorder) (r : Request) : S * ResponseRecorder :=
  let '(σ1, cs) := Verify s σ r in
  (σ1, respond (mkCollaborators next (the_restorer h) (the_errResponder h)) cs w).

(** The options that a program can write, for the statement of what a
    list of options amounts to. *)
Inductive option_shape : Type :=
| SetRestorer (f : string -> ResponseRecorder -> Request -> ResponseRecorder)
| SetErrorResponder (f : error -> Z -> ResponseRecorder -> Request -> ResponseRecorder)
| NilOption.

Definition option_of (o : option_shape) : option StateOption :=
  match o with
  | SetRestorer f => Some (WithRestorer f)
  | SetErrorResponder f => Some (WithErrorResponder f)
  | NilOption => None
  end.

Fixpoint last_restorer (os : list option_shape)
    (d : string -> ResponseRecorder -> Request -> ResponseRecorder)
  : string -> ResponseRecorder -> Request -> ResponseRecorder :=
  match os with
  | [] => d
  | SetRestorer f :: os => last_restorer os f
  | _ :: os => last_restorer os d
  end.

Fixpoint last_errResponder (os : list option_shape)
    (d : error -> Z -> ResponseRecorder -> Request -> ResponseRecorder)
  : error -> Z -> ResponseRecorder -> Request -> ResponseRecorder :=
  match os with
  | [] => d
  | SetErrorResponder f :: os => last_errResponder os f
  | _ :: os => last_errResponder os d
  end.

(** ** The context carrier

    A value of an interface type is a value with its dynamic type; the
    three kinds that matter here are a [string], a value of the package's
    own type [contextKey], and a value of any other type, given by the
    name of the type and the value in print.  Two interface values are
    equal when type and value are. *)
Inductive any : Type :=
| any_string (s : string)
| any_contextKey (s : string)
| any_other (type_name value : string).

#[global] Instance any_eq_dec : EqDecision any.
Proof. solve_decision. Defined.

(** [context.Context], as far as values go: [context.Background()] and
    [context.WithValue(parent, key, val)]; [ctx.Value(key)] is the value
    of the nearest [WithValue] with an equal key, [nil] when there is
    none. *)
Inductive Context : Type :=
| Background
| WithValue (parent : Context) (key val : any).

Fixpoint Value (ctx : Context) (key : any) : option any :=
  match ctx with
  | Background => None
  | WithValue parent k v => if bool_decide (k = key) then Some v else Value parent key
  end.

Definition idempotencyContextKey : any := any_contextKey "idempotency-key".

Definition NewContext (ctx : Context) (idempotencyKey : string) : Context :=
  WithValue ctx idempotencyContextKey (any_string idempotencyKey).

(** [key, ok := ctx.Value(idempotencyContextKey).(string)] *)
Definition FromContext (ctx : Context) : string * bool :=
  match Value ctx idempotencyContextKey with
  | Some (any_string key) => (key, true)
  | _ => ("", false)
  end.

(** Values added on top of a context, the first of the list first. *)
Definition with_values (ctx : Context) (kvs : list (any * any)) : Context :=
  fold_left (fun c kv => WithValue c kv.1 kv.2) kvs ctx.

(** ** More ways to look at the calls and at the stores *)






Definition request_key (r : Request) : string :=
  Header_Get (Header r) "Idempotency-Key".

(** Two stores on the same service, with the same configuration, that
    differ at most in the record of [k]. *)
Definition same_but (k : string) (s s' : Redis.redisStorage) : Prop :=
  Redis.expiry s' = Redis.expiry s
  /\ Redis.keyPrefix s' = Redis.keyPrefix s
  /\ Redis.now (Redis.client s') = Redis.now (Redis.client s)
  /\ Redis.fault (Redis.client s') = Redis.fault (Redis.client s)
  /\ forall k' : string, k' <> k ->
       Redis.db (Redis.client s') !! k' = Redis.db (Redis.client s) !! k'.

(** Requests on the distributed store one after the other, each after
    the delay given with it. *)
Fixpoint serve_timed (σ : Redis.redisStorage) (drs : list (Z * Request))
  : Redis.redisStorage * list (list call) :=
  match drs with
  | [] => (σ, [])
  | (d, r) :: drs =>
      let '(σ1, cs) := Verify (New Redis.store) (redis_later d σ) r in
      let '(σ2, css) := serve_timed σ1 drs in
      (σ2, cs :: css)
  end.

Fixpoint sum_delays (ds : list Z) : Z :=
  match ds with
  | [] => 0
  | d :: ds => d + sum_delays ds
  end.

(** Whether a record written with the expiry [E] is still there after
    the time [d]: an expiry that is not positive writes a record that
    stays. *)
Definition alive (E d : Z) : bool := negb (0 <? E) || (d <? E).

(** The calls of a request that executes the wrapped handler, and of one
    that is sent to the restorer. *)
Definition handled_calls (r : Request) : list call :=
  [StorageGet (request_key r); StorageAdd (request_key r); NextServeHTTP r;
   StorageComplete (request_key r)].

Definition restored_calls (r : Request) : list call :=
  [StorageGet (request_key r); Restorer (request_key r) r].

(** * Properties *)

Example TestVerify_first_request :
  last_status (New Memory.store) Memory.NewMemoryStorage (request_with_key "deadbeef") 1
  = StatusOK.
Proof. vm_compute. reflexivity. Qed.

Example TestVerify_no_header :
  last_status (New Memory.store) Memory.NewMemoryStorage request_without_key 1
  = StatusBadRequest.
Proof. vm_compute. reflexivity. Qed.

Example TestVerify_repeated :
  last_status (New Memory.store) Memory.NewMemoryStorage (request_with_key "deadbeef") 2
  = StatusNoContent.
Proof. vm_compute. reflexivity. Qed.

Example TestVerify_incomplete :
  last_status (New Incomplete.store) Incomplete.newIncompleteStorage
    (request_with_key "deadbeef") 2
  = StatusConflict.
Proof. vm_compute. reflexivity. Qed.

(** ** The step semantics agrees with [Verify] *)

Lemma step_Returned {S : Type} (s : state S) (σ : S) (g : goroutine) :
  g_pc g = Returned -> step s σ g = (σ, g).
Proof. intros H. unfold step. by rewrite H. Qed.

Lemma steps_Returned {S : Type} (s : state S) (n : nat) (σ : S) (g : goroutine) :
  g_pc g = Returned -> steps s n σ g = (σ, g).
Proof.
  intros H. induction n as [|n IH]; [done|].
  simpl. by rewrite (step_Returned s σ g H).
Qed.

(** A goroutine that runs alone returns within four steps, with the store
    and the calls of [Verify]. *)
Lemma steps_Verify {S : Type} (s : state S) (σ : S) (r : Request) :
  steps s 4 σ (spawn r) =
  let '(σ', cs) := Verify s σ r in
  (σ', {| g_request := r; g_pc := Returned; g_calls := cs |}).
Proof.
  unfold Verify, steps, step, spawn, goto. cbn.
  case_bool_decide as Hkey; [done|].
  destruct (Get (storage s) σ _) as [σ1 [status [err|]]]; cbn; [done|].
  destruct status as [status|]; cbn.
  { by destruct (InProcess status). }
  destruct (Add (storage s) σ1 _) as [σ2 [err|]]; cbn; [done|].
  by destruct (Complete (storage s) σ2 _) as [σ3 [err|]].
Qed.

(** ** Counting calls *)

Lemma count_app (p : call -> bool) (l l' : list call) :
  count p (l ++ l') = (count p l + count p l')%nat.
Proof. induction l as [|c l IH]; simpl; [done|]. rewrite IH. lia. Qed.

Lemma count_concat_cons (p : call -> bool) (cs : list call) (css : list (list call)) :
  count p (concat (cs :: css)) = (count p cs + count p (concat css))%nat.
Proof. simpl. apply count_app. Qed.

Lemma Header_Get_missing (h : gmap string (list string)) (key : string) :
  h !! key = None -> Header_Get h key = "".
Proof. intros H. unfold Header_Get. by rewrite H. Qed.

Lemma Header_Get_Set (h : gmap string (list string)) (key value : string) :
  Header_Get (Header_Set h key value) key = value.
Proof. unfold Header_Get, Header_Set. by rewrite lookup_insert_eq. Qed.

(** ** The missing key *)

(** C7. A request whose [Idempotency-Key] header is empty or missing is
    answered through the error responder with 400 Bad Request and the
    error [no Idempotency-Key set], whatever the store and its state; the
    store is left as it was, none of its methods is called and the wrapped
    handler is not executed. *)
Theorem Verify_no_key_bad_request {S : Type} (s : state S) (σ : S) (r : Request) :
  Header_Get (Header r) "Idempotency-Key" = "" ->
  Verify s σ r =
    (σ, [ErrResponder (errorString "no Idempotency-Key set" []) 400 r])
  /\ count is_handler (Verify s σ r).2 = 0%nat
  /\ count is_storage_call (Verify s σ r).2 = 0%nat
  /\ Code (respond test_collaborators (Verify s σ r).2 NewRecorder) = 400.
Proof.
  intros Hkey. unfold Verify. rewrite Hkey.
  rewrite bool_decide_eq_true_2 by done. by cbn.
Qed.

Lemma Verify_no_key_bad_request_witness :
  Verify (New Memory.store) (Memory.Add Memory.NewMemoryStorage "deadbeef").1
    request_without_key =
    ((Memory.Add Memory.NewMemoryStorage "deadbeef").1,
     [ErrResponder (errorString "no Idempotency-Key set" []) 400 request_without_key])
  /\ count is_handler
       (Verify (New Memory.store) (Memory.Add Memory.NewMemoryStorage "deadbeef").1
          request_without_key).2 = 0%nat
  /\ count is_storage_call
       (Verify (New Memory.store) (Memory.Add Memory.NewMemoryStorage "deadbeef").1
          request_without_key).2 = 0%nat
  /\ Code (respond test_collaborators
       (Verify (New Memory.store) (Memory.Add Memory.NewMemoryStorage "deadbeef").1
          request_without_key).2 NewRecorder) = 400.
Proof.
  apply (Verify_no_key_bad_request (New Memory.store)
           (Memory.Add Memory.NewMemoryStorage "deadbeef").1 request_without_key).
  reflexivity.
Defined.

(** ** A key in process *)

Lemma Verify_found_in_process {S : Type} (s : state S) (σ σ1 : S) (r : Request) :
  let key := Header_Get (Header r) "Idempotency-Key" in
  key <> "" ->
  Get (storage s) σ key = (σ1, (Some {| InProcess := true |}, None)) ->
  Verify s σ r =
    (σ1, [StorageGet key;
          ErrResponder (errorString "request already in progress" []) StatusConflict r]).
Proof.
  intros key Hkey HGet. unfold Verify. fold key.
  rewrite bool_decide_eq_false_2 by done. by rewrite HGet.
Qed.

(** With [incompleteStorage] a key that was added stays in process. *)
Lemma incomplete_first_request (f : Incomplete.incompleteStorage) (r : Request) :
  let key := Header_Get (Header r) "Idempotency-Key" in
  key <> "" ->
  Memory.storage (Incomplete.memoryStorage f) !! key <> Some {| InProcess := false |} ->
  Memory.storage (Incomplete.memoryStorage (Verify (New Incomplete.store) f r).1) !! key
  = Some {| InProcess := true |}.
Proof.
  intros key Hkey Hst. unfold Verify. fold key.
  rewrite bool_decide_eq_false_2 by done. cbn.
  destruct (Memory.storage (Incomplete.memoryStorage f) !! key) as [[[]]|] eqn:E; cbn.
  - done.
  - done.
  - by rewrite lookup_insert_eq.
Qed.

(** C6. When [Get] finds the key in process the middleware answers 409
    Conflict through the error responder and the wrapped handler is not
    executed; and with a store whose [Complete] does nothing
    ([incompleteStorage]), a second request with the key of a first one is
    answered 409. *)
Theorem Verify_in_process_conflict {S : Type} (s : state S) (σ σ1 : S)
    (f : Incomplete.incompleteStorage) (r r2 : Request) :
  let key := Header_Get (Header r) "Idempotency-Key" in
  key <> "" ->
  Get (storage s) σ key = (σ1, (Some {| InProcess := true |}, None)) ->
  Header_Get (Header r2) "Idempotency-Key" = key ->
  Memory.storage (Incomplete.memoryStorage f) !! key = None ->
  (Verify s σ r =
     (σ1, [StorageGet key;
           ErrResponder (errorString "request already in progress" []) 409 r])
   /\ count is_handler (Verify s σ r).2 = 0%nat
   /\ Code (respond test_collaborators (Verify s σ r).2 NewRecorder) = 409)
  /\ (serve_all (New Incomplete.store) f [r; r2]).2 !! 1%nat =
       Some [StorageGet key;
             ErrResponder (errorString "request already in progress" []) 409 r2].
Proof.
  intros key Hkey HGet Hkey2 Habsent. split.
  - rewrite (Verify_found_in_process s σ σ1 r Hkey HGet). by cbn.
  - cbn [serve_all].
    pose proof (incomplete_first_request f r Hkey) as H1. fold key in H1.
    destruct (Verify (New Incomplete.store) f r) as [f1 cs1]. cbn in H1.
    assert (Hk2 : Header_Get (Header r2) "Idempotency-Key" <> "") by by rewrite Hkey2.
    rewrite (Verify_found_in_process (New Incomplete.store) f1 f1 r2 Hk2).
    + cbn. by rewrite Hkey2.
    + cbn. rewrite Hkey2. unfold Incomplete.Get, Memory.Get.
      rewrite H1; [by destruct f1|]. by rewrite Habsent.
Qed.

Lemma Verify_in_process_conflict_witness :
  (Verify (New Incomplete.store)
     (Verify (New Incomplete.store) Incomplete.newIncompleteStorage
        (request_with_key "deadbeef")).1 (request_with_key "deadbeef") =
     ((Verify (New Incomplete.store) Incomplete.newIncompleteStorage
        (request_with_key "deadbeef")).1,
      [StorageGet "deadbeef";
       ErrResponder (errorString "request already in progress" []) 409
         (request_with_key "deadbeef")])
   /\ count is_handler
        (Verify (New Incomplete.store)
           (Verify (New Incomplete.store) Incomplete.newIncompleteStorage
              (request_with_key "deadbeef")).1 (request_with_key "deadbeef")).2 = 0%nat
   /\ Code (respond test_collaborators
        (Verify (New Incomplete.store)
           (Verify (New Incomplete.store) Incomplete.newIncompleteStorage
              (request_with_key "deadbeef")).1 (request_with_key "deadbeef")).2
        NewRecorder) = 409)
  /\ (serve_all (New Incomplete.store) Incomplete.newIncompleteStorage
        [request_with_key "deadbeef"; request_with_key "deadbeef"]).2 !! 1%nat =
       Some [StorageGet "deadbeef";
             ErrResponder (errorString "request already in progress" []) 409
               (request_with_key "deadbeef")].
Proof.
  apply (Verify_in_process_conflict (New Incomplete.store)
           (Verify (New Incomplete.store) Incomplete.newIncompleteStorage
              (request_with_key "deadbeef")).1
           (Verify (New Incomplete.store) Incomplete.newIncompleteStorage
              (request_with_key "deadbeef")).1
           Incomplete.newIncompleteStorage
           (request_with_key "deadbeef") (request_with_key "deadbeef")).
  - vm_compute. discriminate.
  - vm_compute. reflexivity.
  - vm_compute. reflexivity.
  - vm_compute. reflexivity.
Defined.

(** ** The in-memory store under [Verify] *)

(** What [Verify] does with the in-memory store, by the status of the key. *)
Lemma Verify_memory (m : Memory.memoryStorage) (r : Request) :
  let key := Header_Get (Header r) "Idempotency-Key" in
  key <> "" ->
  Verify (New Memory.store) m r =
  match Memory.storage m !! key with
  | None =>
      (Memory.mk (<[key := completed]> (<[key := in_process]> (Memory.storage m))),
       [StorageGet key; StorageAdd key; NextServeHTTP r; StorageComplete key])
  | Some st =>
      if InProcess st then
        (m, [StorageGet key;
             ErrResponder (errorString "request already in progress" []) StatusConflict r])
      else (m, [StorageGet key; Restorer key r])
  end.
Proof.
  intros key Hkey. unfold Verify. fold key.
  rewrite bool_decide_eq_false_2 by done. cbn.
  by destruct (Memory.storage m !! key) as [[[]]|].
Qed.

Lemma Verify_memory_completed (m : Memory.memoryStorage) (r : Request) :
  let key := Header_Get (Header r) "Idempotency-Key" in
  key <> "" ->
  Memory.storage m !! key = Some completed ->
  Verify (New Memory.store) m r = (m, [StorageGet key; Restorer key r]).
Proof.
  intros key Hkey Hc. rewrite Verify_memory by done. fold key. by rewrite Hc.
Qed.

(** A completed key stays completed, whatever request is served next. *)
Lemma Verify_memory_keeps_completed (m : Memory.memoryStorage) (r : Request) (key : string) :
  Memory.storage m !! key = Some completed ->
  Memory.storage (Verify (New Memory.store) m r).1 !! key = Some completed.
Proof.
  intros Hc.
  destruct (decide (Header_Get (Header r) "Idempotency-Key" = "")) as [He|Hne].
  { unfold Verify. by rewrite bool_decide_eq_true_2. }
  rewrite Verify_memory by done.
  destruct (Memory.storage m !! Header_Get (Header r) "Idempotency-Key")
    as [[[]]|] eqn:E; cbn; try done.
  assert (Header_Get (Header r) "Idempotency-Key" <> key) by congruence.
  by rewrite !lookup_insert_ne.
Qed.

Lemma serve_all_completed (m : Memory.memoryStorage) (r : Request) (n : nat) :
  let key := Header_Get (Header r) "Idempotency-Key" in
  key <> "" ->
  Memory.storage m !! key = Some completed ->
  serve_all (New Memory.store) m (replicate n r) =
  (m, replicate n [StorageGet key; Restorer key r]).
Proof.
  intros key Hkey Hc. induction n as [|n IH]; [done|].
  cbn [replicate serve_all]. rewrite Verify_memory_completed by done.
  by rewrite IH.
Qed.

Lemma serve_all_routes_completed (m : Memory.memoryStorage) (rs : list Request)
    (key : string) :
  key <> "" ->
  Memory.storage m !! key = Some completed ->
  forall (i : nat) (r' : Request),
    rs !! i = Some r' ->
    Header_Get (Header r') "Idempotency-Key" = key ->
    (serve_all (New Memory.store) m rs).2 !! i = Some [StorageGet key; Restorer key r'].
Proof.
  intros Hkey. revert m. induction rs as [|r rs IH]; intros m Hc i r' Hi Hr'; [done|].
  cbn [serve_all].
  pose proof (Verify_memory_keeps_completed m r key Hc) as Hc1.
  destruct (Verify (New Memory.store) m r) as [m1 cs] eqn:HV. cbn in Hc1.
  specialize (IH m1 Hc1).
  destruct (serve_all (New Memory.store) m1 rs) as [m2 css] eqn:HS. cbn in IH |- *.
  destruct i as [|i]; cbn in Hi |- *.
  - injection Hi as ->. subst key.
    rewrite Verify_memory_completed in HV by done. by injection HV as _ <-.
  - by apply IH.
Qed.

Lemma count_concat_replicate (p : call -> bool) (cs : list call) (n : nat) :
  count p (concat (replicate n cs)) = (n * count p cs)%nat.
Proof.
  induction n as [|n IH]; [done|].
  cbn [replicate]. rewrite count_concat_cons, IH. lia.
Qed.

(** C5. The same request with a key that the in-memory store has not seen,
    served [N >= 1] times one after the other: the wrapped handler is
    executed once, by the first request, and the restorer is invoked by
    each of the other [N - 1].  And once [Complete] has been called for a
    key, every request with that key that is served afterwards, among any
    other requests served one after the other, calls [Get] and the
    restorer and nothing else. *)
Theorem sequential_idempotence (N : nat) (m m0 : Memory.memoryStorage)
    (r : Request) (rs : list Request) :
  let key := Header_Get (Header r) "Idempotency-Key" in
  key <> "" ->
  Memory.storage m !! key = None ->
  (1 <= N)%nat ->
  ((serve_all (New Memory.store) m (replicate N r)).2 =
     [StorageGet key; StorageAdd key; NextServeHTTP r; StorageComplete key]
     :: replicate (N - 1) [StorageGet key; Restorer key r]
   /\ count is_handler (concat (serve_all (New Memory.store) m (replicate N r)).2) = 1%nat
   /\ count is_restorer (concat (serve_all (New Memory.store) m (replicate N r)).2)
      = (N - 1)%nat)
  /\ (forall (i : nat) (r' : Request),
        rs !! i = Some r' ->
        Header_Get (Header r') "Idempotency-Key" = key ->
        (serve_all (New Memory.store) (Memory.Complete m0 key).1 rs).2 !! i
        = Some [StorageGet key; Restorer key r']).
Proof.
  intros key Hkey Habsent HN. split.
  - destruct N as [|N]; [lia|].
    replace (Datatypes.S N - 1)%nat with N by lia.
    cbn [replicate serve_all].
    rewrite Verify_memory by done. fold key. rewrite Habsent.
    rewrite (serve_all_completed _ r N Hkey) by (cbn; by rewrite lookup_insert_eq).
    fold key. cbn [snd]. split; [done|].
    rewrite !count_concat_cons, !count_concat_replicate. cbn. lia.
  - intros i r' Hi Hr'.
    apply serve_all_routes_completed; try done.
    cbn. by rewrite lookup_insert_eq.
Qed.

Lemma sequential_idempotence_witness :
  ((serve_all (New Memory.store) Memory.NewMemoryStorage
      (replicate 3 (request_with_key "deadbeef"))).2 =
     [StorageGet "deadbeef"; StorageAdd "deadbeef";
      NextServeHTTP (request_with_key "deadbeef"); StorageComplete "deadbeef"]
     :: replicate (3 - 1)
          [StorageGet "deadbeef"; Restorer "deadbeef" (request_with_key "deadbeef")]
   /\ count is_handler
        (concat (serve_all (New Memory.store) Memory.NewMemoryStorage
                   (replicate 3 (request_with_key "deadbeef"))).2) = 1%nat
   /\ count is_restorer
        (concat (serve_all (New Memory.store) Memory.NewMemoryStorage
                   (replicate 3 (request_with_key "deadbeef"))).2) = (3 - 1)%nat)
  /\ (forall (i : nat) (r' : Request),
        [request_with_key "cafe"; request_with_key "deadbeef"] !! i = Some r' ->
        Header_Get (Header r') "Idempotency-Key" = "deadbeef" ->
        (serve_all (New Memory.store)
           (Memory.Complete Memory.NewMemoryStorage "deadbeef").1
           [request_with_key "cafe"; request_with_key "deadbeef"]).2 !! i
        = Some [StorageGet "deadbeef"; Restorer "deadbeef" r']).
Proof.
  apply (sequential_idempotence 3 Memory.NewMemoryStorage Memory.NewMemoryStorage
           (request_with_key "deadbeef")
           [request_with_key "cafe"; request_with_key "deadbeef"]).
  - vm_compute. discriminate.
  - vm_compute. reflexivity.
  - lia.
Defined.

(** C10. [Add], [Get] and [Complete] of the in-memory store return a nil
    error for every key and every store; so with this store [Verify] never
    answers 500 Internal Server Error: not after [Get], not after [Add],
    and not for a failed [Complete]; the only answers of the error
    responder are 400 and 409.  The same holds for each step of a request
    served at the same time as others. *)
Theorem memory_store_never_fails (m : Memory.memoryStorage) (key : string)
    (r : Request) (g : goroutine) :
  (Memory.Add m key).2 = None
  /\ (Memory.Get m key).2.2 = None
  /\ (Memory.Complete m key).2 = None
  /\ count (responds_with 500) (Verify (New Memory.store) m r).2 = 0%nat
  /\ (count (responds_with 400) (Verify (New Memory.store) m r).2
      + count (responds_with 409) (Verify (New Memory.store) m r).2
      = count (fun c => negb (is_handler c || is_restorer c || is_storage_call c))
          (Verify (New Memory.store) m r).2)%nat
  /\ count (responds_with 500) (g_calls (step (New Memory.store) m g).2)
     = count (responds_with 500) (g_calls g).
Proof.
  repeat split.
  - unfold Verify. case_bool_decide; [done|]. cbn.
    by destruct (Memory.storage m !! _) as [[[]]|].
  - unfold Verify. case_bool_decide; [done|]. cbn.
    by destruct (Memory.storage m !! _) as [[[]]|].
  - assert (Hadd : forall cs, count (responds_with 500) cs = 0%nat ->
              count (responds_with 500) (g_calls g ++ cs)
              = count (responds_with 500) (g_calls g)).
    { intros cs H0. rewrite count_app, H0. lia. }
    unfold step, goto. destruct (g_pc g); cbn; try done; try by apply Hadd.
    case_bool_decide; cbn; [by apply Hadd|].
    destruct (Memory.storage m !! _) as [[[]]|]; cbn; by apply Hadd.
Qed.

(** ** The distributed store *)

Lemma with_client_id (s : Redis.redisStorage) : Redis.with_client s (Redis.client s) = s.
Proof. by destruct s. Qed.

Lemma live_store_entry_eq (c : Redis.Client) (key : string) (e : Redis.entry) :
  Redis.live (Redis.store_entry c key e) key =
  match Redis.expireAt e with
  | Some t => if Redis.now c <? t then Some e else None
  | None => Some e
  end.
Proof. unfold Redis.live, Redis.store_entry. cbn. by rewrite lookup_insert_eq. Qed.

(** A live entry with an expiry instant has that instant ahead. *)
Lemma live_expireAt (c : Redis.Client) (key : string) (e : Redis.entry) (t : Z) :
  Redis.live c key = Some e -> Redis.expireAt e = Some t -> Redis.now c < t.
Proof.
  unfold Redis.live. intros Hl Ht.
  destruct (Redis.db c !! key) as [e'|]; [|done].
  destruct (Redis.expireAt e') as [t'|] eqn:E.
  - destruct (Redis.now c <? t') eqn:Hlt; [|done].
    injection Hl as ->. rewrite Ht in E. injection E as ->. lia.
  - injection Hl as ->. congruence.
Qed.

(** C9. [Complete] of the distributed store, for a key with a live record
    on a service that can be reached: it returns nil, the record's value
    becomes the done marker, so that [Get] reports a completed request,
    and the expiry instant of the record and its remaining time to live
    are the ones it had; the clock, the other keys and the configuration
    of the store are not touched. *)
Theorem redis_Complete_keeps_expiry (s : Redis.redisStorage) (key : string)
    (e : Redis.entry) :
  let k := Redis.keyPrefix s +:+ key in
  let s' := (Redis.Complete s key).1 in
  Redis.fault (Redis.client s) = None ->
  Redis.live (Redis.client s) k = Some e ->
  (Redis.Get s key).2
    = (Some {| InProcess := bool_decide (Redis.value e = "in-process") |}, None)
  /\ (Redis.Complete s key).2 = None
  /\ Redis.live (Redis.client s') k
     = Some {| Redis.value := "done"; Redis.expireAt := Redis.expireAt e |}
  /\ (Redis.Get s' key).2 = (Some completed, None)
  /\ Redis.PTTL (Redis.client s') k = Redis.PTTL (Redis.client s) k
  /\ Redis.now (Redis.client s') = Redis.now (Redis.client s)
  /\ (forall k' : string, k' <> k ->
        Redis.db (Redis.client s') !! k' = Redis.db (Redis.client s) !! k')
  /\ Redis.expiry s' = Redis.expiry s
  /\ Redis.keyPrefix s' = Redis.keyPrefix s.
Proof.
  intros k s' Hup Hlive.
  assert (Hlive' : Redis.live (Redis.client s') k
            = Some {| Redis.value := "done"; Redis.expireAt := Redis.expireAt e |}).
  { subst s'. unfold Redis.Complete, Redis.client_Set. rewrite Hup. cbn. fold k.
    rewrite Hlive, live_store_entry_eq. cbn.
    destruct (Redis.expireAt e) as [t|] eqn:Ht; [|done].
    pose proof (live_expireAt _ _ _ _ Hlive Ht) as Hlt.
    apply Z.ltb_lt in Hlt. by rewrite Hlt. }
  assert (Hfault' : Redis.fault (Redis.client s') = None).
  { subst s'. unfold Redis.Complete, Redis.client_Set. by rewrite Hup. }
  assert (Hprefix : Redis.keyPrefix s' = Redis.keyPrefix s).
  { subst s'. unfold Redis.Complete, Redis.client_Set. by rewrite Hup. }
  repeat split.
  - unfold Redis.Get, Redis.client_Get. rewrite Hup. fold k. by rewrite Hlive.
  - unfold Redis.Complete, Redis.client_Set. by rewrite Hup.
  - done.
  - unfold Redis.Get, Redis.client_Get. rewrite Hfault', Hprefix. fold k.
    by rewrite Hlive'.
  - unfold Redis.PTTL. rewrite Hlive', Hlive. cbn.
    destruct (Redis.expireAt e); [|done].
    subst s'. unfold Redis.Complete, Redis.client_Set. by rewrite Hup.
  - subst s'. unfold Redis.Complete, Redis.client_Set. by rewrite Hup.
  - intros k' Hk'. subst s'. unfold Redis.Complete, Redis.client_Set. rewrite Hup. cbn.
    fold k. by rewrite lookup_insert_ne.
  - subst s'. unfold Redis.Complete, Redis.client_Set. by rewrite Hup.
  - done.
Qed.

Lemma redis_Complete_keeps_expiry_witness :
  let s := redis_later 300 redis_claimed in
  let k := "idemp:deadbeef" in
  let s' := (Redis.Complete s "deadbeef").1 in
  (Redis.Get s "deadbeef").2 = (Some in_process, None)
  /\ (Redis.Complete s "deadbeef").2 = None
  /\ Redis.live (Redis.client s') k
     = Some {| Redis.value := "done"; Redis.expireAt := Some 1000 |}
  /\ (Redis.Get s' "deadbeef").2 = (Some completed, None)
  /\ Redis.PTTL (Redis.client s') k = Redis.PTTL (Redis.client s) k
  /\ Redis.now (Redis.client s') = Redis.now (Redis.client s)
  /\ (forall k' : string, k' <> k ->
        Redis.db (Redis.client s') !! k' = Redis.db (Redis.client s) !! k')
  /\ Redis.expiry s' = Redis.expiry s
  /\ Redis.keyPrefix s' = Redis.keyPrefix s.
Proof.
  apply (redis_Complete_keeps_expiry (redis_later 300 redis_claimed) "deadbeef"
           {| Redis.value := "in-process"; Redis.expireAt := Some 1000 |}).
  - reflexivity.
  - vm_compute. reflexivity.
Defined.

Example redis_ttl_before_and_after :
  Redis.PTTL (Redis.client (redis_later 300 redis_claimed)) "idemp:deadbeef" = 700
  /\ Redis.PTTL
       (Redis.client (Redis.Complete (redis_later 300 redis_claimed) "deadbeef").1)
       "idemp:deadbeef" = 700.
Proof. vm_compute. done. Qed.

(** *** [Add] of the distributed store: the three ways it returns *)

Lemma valid_expiration_check (d : Z) :
  valid_expiration d -> (d <? 0) && negb (d =? Redis.KeepTTL) = false.
Proof.
  unfold valid_expiration, Redis.KeepTTL. intros [H| ->]; [|done].
  apply andb_false_iff. left. by apply Z.ltb_ge.
Qed.

Lemma redis_Add_fault (s : Redis.redisStorage) (key : string) (cause : error) :
  Redis.fault (Redis.client s) = Some cause ->
  Redis.Add s key =
  (s, Some (wrapError "failed to set the key %q in redis: %w" [key] cause)).
Proof.
  intros Hf. unfold Redis.Add, Redis.client_SetNX. rewrite Hf. by rewrite with_client_id.
Qed.

Lemma redis_Add_exists (s : Redis.redisStorage) (key : string) (e : Redis.entry) :
  Redis.fault (Redis.client s) = None ->
  valid_expiration (Redis.expiry s) ->
  Redis.live (Redis.client s) (Redis.keyPrefix s +:+ key) = Some e ->
  Redis.Add s key = (s, Some (errorString "the key %q already exists in redis" [key])).
Proof.
  intros Hf Hv Hl. unfold Redis.Add, Redis.client_SetNX.
  rewrite Hf, (valid_expiration_check _ Hv), Hl. cbn. by rewrite with_client_id.
Qed.

Lemma redis_Add_fresh (s : Redis.redisStorage) (key : string) :
  Redis.fault (Redis.client s) = None ->
  valid_expiration (Redis.expiry s) ->
  Redis.live (Redis.client s) (Redis.keyPrefix s +:+ key) = None ->
  Redis.Add s key =
  (Redis.with_client s
     (Redis.store_entry (Redis.client s) (Redis.keyPrefix s +:+ key)
        {| Redis.value := "in-process";
           Redis.expireAt :=
             if 0 <? Redis.expiry s
             then Some (Redis.now (Redis.client s) + Redis.expiry s) else None |}),
   None).
Proof.
  intros Hf Hv Hl. unfold Redis.Add, Redis.client_SetNX.
  by rewrite Hf, (valid_expiration_check _ Hv), Hl.
Qed.

(** ** A claim that fails *)

Lemma step_AtAdd_error {S : Type} (s : state S) (σ σ' : S) (g : goroutine) (err : error) :
  let r := g_request g in
  let key := Header_Get (Header r) "Idempotency-Key" in
  g_pc g = AtAdd ->
  Add (storage s) σ key = (σ', Some err) ->
  step s σ g =
  (σ', goto g Returned
         [StorageAdd key;
          ErrResponder
            (wrapError "could not process request to save Idempotency-Key: %w" [] err)
            StatusInternalServerError r]).
Proof.
  intros r key Hpc HAdd. unfold step. rewrite Hpc. fold r key. by rewrite HAdd.
Qed.

Lemma Verify_Add_error {S : Type} (s : state S) (σ σ1 σ2 : S) (r : Request) (err : error) :
  let key := Header_Get (Header r) "Idempotency-Key" in
  key <> "" ->
  Get (storage s) σ key = (σ1, (None, None)) ->
  Add (storage s) σ1 key = (σ2, Some err) ->
  Verify s σ r =
  (σ2, [StorageGet key; StorageAdd key;
        ErrResponder
          (wrapError "could not process request to save Idempotency-Key: %w" [] err)
          StatusInternalServerError r]).
Proof.
  intros key Hkey HGet HAdd. unfold Verify. fold key.
  rewrite bool_decide_eq_false_2 by done. by rewrite HGet, HAdd.
Qed.

(** C2, as the code has it.  [Add] of the distributed store reports a key
    that already exists and a service that cannot be reached through the
    same result, a non-nil error, and the middleware answers both with 500
    Internal Server Error.  The two errors are different values: the one of
    the existing key wraps nothing and does not depend on the stored value
    (in process or done), the one of the failure wraps the error of the
    service. *)
Theorem redis_Add_error_paths (s_race s_down : Redis.redisStorage) (key : string)
    (e : Redis.entry) (cause : error) (g : goroutine) :
  let e_race := errorString "the key %q already exists in redis" [key] in
  let e_down := wrapError "failed to set the key %q in redis: %w" [key] cause in
  let save := wrapError "could not process request to save Idempotency-Key: %w" [] in
  Redis.fault (Redis.client s_race) = None ->
  valid_expiration (Redis.expiry s_race) ->
  Redis.live (Redis.client s_race) (Redis.keyPrefix s_race +:+ key) = Some e ->
  Redis.fault (Redis.client s_down) = Some cause ->
  g_pc g = AtAdd ->
  Header_Get (Header (g_request g)) "Idempotency-Key" = key ->
  Redis.Add s_race key = (s_race, Some e_race)
  /\ Redis.Add s_down key = (s_down, Some e_down)
  /\ Unwrap e_race = None
  /\ Unwrap e_down = Some cause
  /\ e_race <> e_down
  /\ step (New Redis.store) s_race g =
       (s_race, goto g Returned
                  [StorageAdd key; ErrResponder (save e_race) 500 (g_request g)])
  /\ step (New Redis.store) s_down g =
       (s_down, goto g Returned
                  [StorageAdd key; ErrResponder (save e_down) 500 (g_request g)]).
Proof.
  intros e_race e_down save Hup Hv Hl Hdown Hpc Hkey.
  pose proof (redis_Add_exists s_race key e Hup Hv Hl) as Hrace.
  pose proof (redis_Add_fault s_down key cause Hdown) as Hfail.
  subst key. repeat split; try done.
  - by apply (step_AtAdd_error (New Redis.store)).
  - by apply (step_AtAdd_error (New Redis.store)).
Qed.

Lemma redis_Add_error_paths_witness :
  let key := "deadbeef" in
  let g := found_nothing in
  let e_race := errorString "the key %q already exists in redis" [key] in
  let e_down := wrapError "failed to set the key %q in redis: %w" [key] connection_refused in
  let save := wrapError "could not process request to save Idempotency-Key: %w" [] in
  Redis.Add redis_completed key = (redis_completed, Some e_race)
  /\ Redis.Add redis_down key = (redis_down, Some e_down)
  /\ Unwrap e_race = None
  /\ Unwrap e_down = Some connection_refused
  /\ e_race <> e_down
  /\ step (New Redis.store) redis_completed g =
       (redis_completed, goto g Returned
                  [StorageAdd key; ErrResponder (save e_race) 500 (g_request g)])
  /\ step (New Redis.store) redis_down g =
       (redis_down, goto g Returned
                  [StorageAdd key; ErrResponder (save e_down) 500 (g_request g)]).
Proof.
  apply (redis_Add_error_paths redis_completed redis_down "deadbeef"
           {| Redis.value := "done"; Redis.expireAt := Some 1000 |}
           connection_refused found_nothing).
  - reflexivity.
  - left. vm_compute. discriminate.
  - vm_compute. reflexivity.
  - reflexivity.
  - reflexivity.
  - vm_compute. reflexivity.
Defined.

(** C2, as the claim states it, fails.  For the key [deadbeef], [Add] on a
    store that holds the key and [Add] on a store whose service cannot be
    reached both return a non-nil error; the package declares no error
    value or type to compare it with, and its one caller, [Verify], does
    the same for both: it answers 500 and returns.  A key held in process
    and a key held done give the very same error. *)
Lemma redis_Add_conflates :
  is_Some (Redis.Add redis_claimed "deadbeef").2
  /\ is_Some (Redis.Add redis_down "deadbeef").2
  /\ answers (g_calls (step (New Redis.store) redis_claimed found_nothing).2) = [500]
  /\ answers (g_calls (step (New Redis.store) redis_down found_nothing).2) = [500]
  /\ g_pc (step (New Redis.store) redis_claimed found_nothing).2 = Returned
  /\ g_pc (step (New Redis.store) redis_down found_nothing).2 = Returned
  /\ (Redis.Add redis_claimed "deadbeef").2 = (Redis.Add redis_completed "deadbeef").2.
Proof. vm_compute. repeat split; eauto. Qed.

(** C3, as the code has it.  A request that found the key absent and
    whose [Add] then returns an error, the error of a lost race included,
    is answered 500 Internal Server Error through the error responder,
    with the error of the store wrapped; the request returns there: no 409,
    no restorer, no wrapped handler, no [Complete]. *)
Theorem lost_claim_answers_500 {S : Type} (s : state S) (σ σ' : S) (g : goroutine)
    (err : error) :
  let r := g_request g in
  let key := Header_Get (Header r) "Idempotency-Key" in
  let answer :=
    [StorageAdd key;
     ErrResponder
       (wrapError "could not process request to save Idempotency-Key: %w" [] err) 500 r] in
  g_pc g = AtAdd ->
  Add (storage s) σ key = (σ', Some err) ->
  step s σ g = (σ', goto g Returned answer)
  /\ answers answer = [500]
  /\ count (responds_with 409) answer = 0%nat
  /\ count is_restorer answer = 0%nat
  /\ count is_handler answer = 0%nat
  /\ forall n : nat, steps s n σ' (goto g Returned answer) = (σ', goto g Returned answer).
Proof.
  intros r key answer Hpc HAdd. repeat split.
  - by apply step_AtAdd_error.
  - intros n. by apply steps_Returned.
Qed.

Lemma lost_claim_answers_500_witness :
  let g := found_nothing in
  let r := request_with_key "deadbeef" in
  let err := errorString "the key %q already exists in redis" ["deadbeef"] in
  let answer :=
    [StorageAdd "deadbeef";
     ErrResponder
       (wrapError "could not process request to save Idempotency-Key: %w" [] err) 500 r] in
  step (New Redis.store) redis_claimed g = (redis_claimed, goto g Returned answer)
  /\ answers answer = [500]
  /\ count (responds_with 409) answer = 0%nat
  /\ count is_restorer answer = 0%nat
  /\ count is_handler answer = 0%nat
  /\ forall n : nat,
       steps (New Redis.store) n redis_claimed (goto g Returned answer)
       = (redis_claimed, goto g Returned answer).
Proof.
  apply (lost_claim_answers_500 (New Redis.store) redis_claimed redis_claimed
           found_nothing
           (errorString "the key %q already exists in redis" ["deadbeef"])).
  - reflexivity.
  - vm_compute. reflexivity.
Defined.

(** C3, as the claim states it, fails.  Two requests with the key
    [deadbeef] on the distributed store: both call [Get] and find nothing,
    the second claims the key, and then the first calls [Add].  In the
    first run the second request is still at its handler, the key is in
    process, and the first request is answered 500, not 409.  In the
    second run the second request has completed, the key is done, and the
    first request is answered 500 and the restorer is not invoked. *)
Lemma lost_race_is_answered_500 :
  let r := request_with_key "deadbeef" in
  let lost :=
    {| g_request := r; g_pc := Returned;
       g_calls :=
         [StorageGet "deadbeef"; StorageAdd "deadbeef";
          ErrResponder
            (wrapError "could not process request to save Idempotency-Key: %w" []
               (errorString "the key %q already exists in redis" ["deadbeef"]))
            500 r] |} in
  let run1 := run (New Redis.store) redis0 [spawn r; spawn r] [0; 1; 1; 0]%nat in
  let run2 := run (New Redis.store) redis0 [spawn r; spawn r] [0; 1; 1; 1; 1; 0]%nat in
  (run1.2 !! 0%nat = Some lost
   /\ (Redis.Get run1.1 "deadbeef").2 = (Some in_process, None)
   /\ count (responds_with 409) (g_calls lost) = 0%nat)
  /\ (run2.2 !! 0%nat = Some lost
      /\ (Redis.Get run2.1 "deadbeef").2 = (Some completed, None)
      /\ count is_restorer (g_calls lost) = 0%nat).
Proof. vm_compute. done. Qed.

(** ** The in-memory store: claims that do not exclude each other *)

(** C1, on the code.  [Add] of the in-memory store does not look at the
    key: for every store and every key it returns nil and leaves the key
    in process.  On a store where the key [deadbeef] is completed, [Add]
    returns nil and the key is in process again. *)
Theorem memory_Add_overwrites (m : Memory.memoryStorage) (key : string) :
  (Memory.Add m key).2 = None
  /\ Memory.storage (Memory.Add m key).1 !! key = Some in_process
  /\ let done_ := (Memory.Complete (Memory.Add Memory.NewMemoryStorage "deadbeef").1
                     "deadbeef").1 in
     (Memory.Get done_ "deadbeef").2 = (Some completed, None)
     /\ (Memory.Add done_ "deadbeef").2 = None
     /\ (Memory.Get (Memory.Add done_ "deadbeef").1 "deadbeef").2
        = (Some in_process, None).
Proof.
  split; [done|]. split.
  - cbn. by rewrite lookup_insert_eq.
  - vm_compute. done.
Qed.

Lemma claim_all_memory (m : Memory.memoryStorage) (key : string) (n : nat) :
  (claim_all Memory.store m key n).2 = replicate n None.
Proof.
  revert m. induction n as [|n IH]; intros m; [done|].
  cbn [claim_all replicate]. cbn [Add Memory.store].
  destruct (Memory.Add m key) as [m1 err] eqn:HA.
  specialize (IH m1).
  destruct (claim_all Memory.store m1 key n) as [m2 errs]. cbn in IH |- *.
  unfold Memory.Add in HA. injection HA as _ <-. by rewrite IH.
Qed.

(** With the in-memory store each of [N] claims of one key returns nil, so
    each claimant takes itself for the first.  Two requests with the key
    [deadbeef] that both call [Get] before either calls [Add] both execute
    the wrapped handler. *)
Lemma memory_claims_all_succeed (m : Memory.memoryStorage) (key : string) (N : nat) :
  (claim_all Memory.store m key N).2 = replicate N None
  /\ let r := request_with_key "deadbeef" in
     let gs := (run (New Memory.store) Memory.NewMemoryStorage [spawn r; spawn r]
                  [0; 1; 0; 1; 0; 1; 0; 1]%nat).2 in
     map g_pc gs = [Returned; Returned]
     /\ map g_calls gs =
          [[StorageGet "deadbeef"; StorageAdd "deadbeef"; NextServeHTTP r;
            StorageComplete "deadbeef"];
           [StorageGet "deadbeef"; StorageAdd "deadbeef"; NextServeHTTP r;
            StorageComplete "deadbeef"]]
     /\ count is_handler (all_calls gs) = 2%nat.
Proof.
  split; [apply claim_all_memory|]. vm_compute. done.
Qed.

(** C8, on the code.  Two requests with the key [deadbeef] on the
    in-memory store; both call [Get] and find nothing, the first adds the
    key, executes the handler and completes, and then the second calls
    [Add].  The statuses of the key after each step: it goes from
    completed back to in process. *)
Theorem memory_status_goes_back :
  let r := request_with_key "deadbeef" in
  map (fun m => Memory.storage m !! "deadbeef")
    (history (New Memory.store) Memory.NewMemoryStorage [spawn r; spawn r]
       [0; 1; 0; 0; 0; 1]%nat)
  = [None; None; None; Some in_process; Some in_process; Some completed;
     Some in_process].
Proof. vm_compute. reflexivity. Qed.

(** *** What holds of the in-memory store when requests do not overlap *)

Lemma Verify_memory_rank (m : Memory.memoryStorage) (r : Request) (k : string) :
  (rank (Memory.storage m !! k)
   <= rank (Memory.storage (Verify (New Memory.store) m r).1 !! k))%nat.
Proof.
  destruct (decide (Header_Get (Header r) "Idempotency-Key" = "")) as [He|Hne].
  { unfold Verify. by rewrite bool_decide_eq_true_2. }
  rewrite Verify_memory by done.
  destruct (Memory.storage m !! Header_Get (Header r) "Idempotency-Key")
    as [[[]]|] eqn:E; cbn [fst]; try done.
  cbn [Memory.storage].
  destruct (decide (Header_Get (Header r) "Idempotency-Key" = k)) as [Heq|Hk].
  - subst k. rewrite E, lookup_insert_eq. cbn. lia.
  - by rewrite !lookup_insert_ne.
Qed.

Lemma serve_all_memory_rank (m : Memory.memoryStorage) (rs : list Request) (k : string) :
  (rank (Memory.storage m !! k)
   <= rank (Memory.storage (serve_all (New Memory.store) m rs).1 !! k))%nat.
Proof.
  revert m. induction rs as [|r rs IH]; intros m; [done|].
  cbn [serve_all].
  pose proof (Verify_memory_rank m r k) as H1.
  destruct (Verify (New Memory.store) m r) as [m1 cs].
  specialize (IH m1).
  destruct (serve_all (New Memory.store) m1 rs) as [m2 css].
  cbn in *. lia.
Qed.

(** *** The distributed store: one claim wins *)

Lemma claim_all_redis_held (s : Redis.redisStorage) (key : string) (e : Redis.entry)
    (n : nat) :
  Redis.fault (Redis.client s) = None ->
  valid_expiration (Redis.expiry s) ->
  Redis.live (Redis.client s) (Redis.keyPrefix s +:+ key) = Some e ->
  claim_all Redis.store s key n =
  (s, replicate n (Some (errorString "the key %q already exists in redis" [key]))).
Proof.
  intros Hf Hv Hl. induction n as [|n IH]; [done|].
  cbn [claim_all replicate]. cbn [Add Redis.store].
  rewrite (redis_Add_exists s key e Hf Hv Hl). by rewrite IH.
Qed.

Lemma claim_all_redis_fresh (s : Redis.redisStorage) (key : string) (n : nat) :
  Redis.fault (Redis.client s) = None ->
  valid_expiration (Redis.expiry s) ->
  Redis.live (Redis.client s) (Redis.keyPrefix s +:+ key) = None ->
  (claim_all Redis.store s key (Datatypes.S n)).2 =
  None :: replicate n (Some (errorString "the key %q already exists in redis" [key])).
Proof.
  intros Hf Hv Hl. cbn [claim_all]. cbn [Add Redis.store].
  rewrite (redis_Add_fresh s key Hf Hv Hl).
  rewrite (claim_all_redis_held _ key
             {| Redis.value := "in-process";
                Redis.expireAt :=
                  if 0 <? Redis.expiry s
                  then Some (Redis.now (Redis.client s) + Redis.expiry s) else None |});
    [done|done|done|].
  cbn. rewrite live_store_entry_eq. cbn.
  destruct (0 <? Redis.expiry s) eqn:Hpos; [|done].
  apply Z.ltb_lt in Hpos.
  assert (Hlt : (Redis.now (Redis.client s) <? Redis.now (Redis.client s) + Redis.expiry s)
                = true) by (apply Z.ltb_lt; lia).
  by rewrite Hlt.
Qed.

(** *** The methods of the distributed store on a service that answers *)

Lemma redis_Get_up (s : Redis.redisStorage) (key : string) :
  Redis.fault (Redis.client s) = None ->
  Redis.Get s key =
  (s, (match Redis.live (Redis.client s) (Redis.keyPrefix s +:+ key) with
       | Some e => Some {| InProcess := bool_decide (Redis.value e = "in-process") |}
       | None => None
       end, None)).
Proof.
  intros Hf. unfold Redis.Get, Redis.client_Get. rewrite Hf.
  destruct (Redis.live _ _); cbn; by rewrite with_client_id.
Qed.

Lemma redis_Complete_up (s : Redis.redisStorage) (key : string) :
  Redis.fault (Redis.client s) = None ->
  Redis.Complete s key =
  (Redis.with_client s
     (Redis.store_entry (Redis.client s) (Redis.keyPrefix s +:+ key)
        {| Redis.value := "done";
           Redis.expireAt :=
             match Redis.live (Redis.client s) (Redis.keyPrefix s +:+ key) with
             | Some e => Redis.expireAt e
             | None => None
             end |}),
   None).
Proof. intros Hf. unfold Redis.Complete, Redis.client_Set. by rewrite Hf. Qed.

Lemma append_inj_l (p a b : string) : p +:+ a = p +:+ b -> a = b.
Proof. induction p as [|c p IH]; cbn; [done|]. intros H. injection H as H. auto. Qed.

Lemma total_insert (f : goroutine -> nat) (gs : list goroutine) (i : nat)
    (g g' : goroutine) :
  gs !! i = Some g ->
  (total f (<[i := g']> gs) + f g = total f gs + f g')%nat.
Proof.
  revert i. induction gs as [|h gs IH]; intros i Hi; [done|].
  destruct i as [|i]; simpl in *.
  - injection Hi as ->. lia.
  - specialize (IH i Hi). lia.
Qed.

Lemma total_lookup_le (f : goroutine -> nat) (gs : list goroutine) (i : nat)
    (g : goroutine) :
  gs !! i = Some g -> (f g <= total f gs)%nat.
Proof.
  revert i. induction gs as [|h gs IH]; intros i Hi; [done|].
  destruct i as [|i]; simpl in *.
  - injection Hi as ->. lia.
  - specialize (IH i Hi). lia.
Qed.

Lemma total_le (f f' : goroutine -> nat) (gs : list goroutine) :
  Forall (fun g => (f g <= f' g)%nat) gs -> (total f gs <= total f' gs)%nat.
Proof. induction 1; cbn; lia. Qed.

Lemma total_zero (f : goroutine -> nat) (gs : list goroutine) :
  Forall (fun g => f g = 0%nat) gs -> total f gs = 0%nat.
Proof. induction 1; cbn; lia. Qed.

Lemma handled_goto (g : goroutine) (p : pc) (cs : list call) :
  handled (goto g p cs) = (handled g + count is_handler cs)%nat.
Proof. unfold handled, goto. cbn. apply count_app. Qed.

(** *** One claimant per record *)

Lemma step_request {S : Type} (s : state S) (σ : S) (g : goroutine) :
  g_request (step s σ g).2 = g_request g.
Proof.
  unfold step. destruct (g_pc g); cbn; try done.
  - case_bool_decide; [done|].
    destruct (Get (storage s) σ _) as [σ1 [[st|] [err|]]]; cbn; try done.
    by destruct (InProcess st).
  - by destruct (Add (storage s) σ _) as [σ1 [err|]].
  - by destruct (Complete (storage s) σ _) as [σ1 [err|]].
Qed.

(** A step leaves the store as it is or writes the record of its key. *)
Lemma step_redis_store (σ : Redis.redisStorage) (g : goroutine) :
  Redis.fault (Redis.client σ) = None ->
  valid_expiration (Redis.expiry σ) ->
  (step (New Redis.store) σ g).1 = σ
  \/ exists e' : Redis.entry,
       (step (New Redis.store) σ g).1 =
       Redis.with_client σ
         (Redis.store_entry (Redis.client σ) (Redis.keyPrefix σ +:+ key_of g) e').
Proof.
  intros Hf Hv. unfold step. fold (key_of g).
  destruct (g_pc g); cbn [storage Get Add Complete Redis.store].
  - case_bool_decide; [by left|].
    rewrite redis_Get_up by done.
    destruct (Redis.live _ _) as [e|]; [|by left].
    case_match; by left.
  - destruct (Redis.live (Redis.client σ) (Redis.keyPrefix σ +:+ key_of g))
      as [e|] eqn:Hl.
    + rewrite (redis_Add_exists σ _ e) by done. by left.
    + rewrite redis_Add_fresh by done. right. eauto.
  - by left.
  - rewrite redis_Complete_up by done. right. eauto.
  - by left.
Qed.

Section OneClaimWins.

Variables (E T0 : Z) (P key : string).
Hypothesis HE : valid_expiration E.

Lemma lasting_live (σ : Redis.redisStorage) (e : Redis.entry) :
  Redis.db (Redis.client σ) !! (P +:+ key) = Some e ->
  lasting E T0 e ->
  (0 < E -> Redis.now (Redis.client σ) < T0 + E) ->
  Redis.live (Redis.client σ) (P +:+ key) = Some e.
Proof.
  intros Hdb Hl Hnow. unfold Redis.live. rewrite Hdb.
  destruct Hl as [->|[HposE [t [-> Ht]]]]; [done|].
  specialize (Hnow HposE).
  assert ((Redis.now (Redis.client σ) <? t) = true) as -> by (apply Z.ltb_lt; lia).
  done.
Qed.

Lemma winner_le_winners (gs : list goroutine) (i : nat) (g : goroutine) :
  gs !! i = Some g -> winner key g = true -> (1 <= winners key gs)%nat.
Proof.
  intros Hi Hw. unfold winners.
  pose proof (total_lookup_le (fun g => if winner key g then 1%nat else 0%nat)
                gs i g Hi) as H.
  cbn in H. by rewrite Hw in H.
Qed.


(** The invariant after one goroutine has moved from [g] to [g']. *)
Lemma one_winner_update (σ σ' : Redis.redisStorage) (gs : list goroutine)
    (i : nat) (g g' : goroutine) :
  one_winner E T0 P key σ gs ->
  gs !! i = Some g ->
  Redis.fault (Redis.client σ') = None ->
  Redis.expiry σ' = E ->
  Redis.keyPrefix σ' = P ->
  T0 <= Redis.now (Redis.client σ') ->
  on_track key g' ->
  (winner key g' = winner key g
   /\ (forall e, Redis.db (Redis.client σ) !! (P +:+ key) = Some e -> lasting E T0 e ->
         exists e', Redis.db (Redis.client σ') !! (P +:+ key) = Some e'
                    /\ lasting E T0 e'))
  \/ (winner key g = false /\ winner key g' = true /\ winners key gs = 0%nat
      /\ exists e', Redis.db (Redis.client σ') !! (P +:+ key) = Some e'
                    /\ lasting E T0 e') ->
  one_winner E T0 P key σ' (<[i := g']> gs).
Proof.
  intros (Hf & Hexp & Hpre & Hnow & Hok & Hwin) Hi Hf' Hexp' Hpre' Hnow' Hok' Hcase.
  repeat split; try done.
  - by apply Forall_insert.
  - pose proof (total_insert (fun g => if winner key g then 1%nat else 0%nat)
                  gs i g g' Hi) as Htot.
    cbn beta in Htot.
    fold (winners key gs) in Htot. fold (winners key (<[i := g']> gs)) in Htot.
    destruct Hcase as [[Hsame Hrec]|(Hg & Hg' & Hnone & Hrec)].
    + rewrite Hsame in Htot.
      destruct Hwin as [H0|[H1 (e & Hdb & Hl)]].
      * left. lia.
      * right. split; [lia|]. by apply (Hrec e).
    + rewrite Hg, Hg' in Htot. right. split; [lia|done].
Qed.

Lemma winner_goto (g : goroutine) (p : pc) (cs : list call) :
  winner key (goto g p cs) =
  bool_decide (key_of g = key)
  && (match p with AtServe | AtComplete => true | _ => false end
      || (0 <? handled g + count is_handler cs)%nat).
Proof. unfold winner. by rewrite handled_goto. Qed.

Lemma on_track_goto (g : goroutine) (p : pc) (cs : list call) :
  match p with
  | AtGet | AtAdd | AtServe => (handled g + count is_handler cs = 0)%nat
  | AtComplete => (handled g + count is_handler cs = 1)%nat
  | Returned => (handled g + count is_handler cs <= 1)%nat
  end ->
  on_track key (goto g p cs).
Proof. intros H _. rewrite handled_goto. by destruct p. Qed.

(** A step of one goroutine keeps the invariant, while no record
    written during the requests expires; the clock stays. *)
Lemma step_keeps_one_winner (σ : Redis.redisStorage) (gs : list goroutine)
    (i : nat) (g : goroutine) :
  one_winner E T0 P key σ gs ->
  (0 < E -> Redis.now (Redis.client σ) < T0 + E) ->
  gs !! i = Some g ->
  one_winner E T0 P key (step (New Redis.store) σ g).1
    (<[i := (step (New Redis.store) σ g).2]> gs)
  /\ Redis.now (Redis.client (step (New Redis.store) σ g).1)
     = Redis.now (Redis.client σ).
Proof.
  intros Hinv Htime Hi.
  pose proof Hinv as (Hf & Hexp & Hpre & Hnow & Hok & Hwin).
  assert (Hv : valid_expiration (Redis.expiry σ)) by by rewrite Hexp.
  pose proof (proj1 (Forall_lookup _ _) Hok i g Hi) as Hg.
  assert (Hcfg : Redis.fault (Redis.client (step (New Redis.store) σ g).1) = None
                 /\ Redis.expiry (step (New Redis.store) σ g).1 = E
                 /\ Redis.keyPrefix (step (New Redis.store) σ g).1 = P
                 /\ Redis.now (Redis.client (step (New Redis.store) σ g).1)
                    = Redis.now (Redis.client σ)).
  { by destruct (step_redis_store σ g Hf Hv) as [->|[e' ->]]. }
  destruct Hcfg as (Hf' & Hexp' & Hpre' & Hnow').
  split; [|done].
  destruct (decide (key_of g = key)) as [Hkey|Hkey].
  2: {
    apply (one_winner_update σ _ gs i g); try done.
    - lia.
    - intros Hk. unfold key_of in Hk. rewrite step_request in Hk. done.
    - left. split.
      + unfold winner, key_of. rewrite step_request. fold (key_of g).
        by rewrite !bool_decide_eq_false_2.
      + intros e Hdb Hl. exists e. split; [|done].
        destruct (step_redis_store σ g Hf Hv) as [->|[e' ->]]; [done|].
        cbn. rewrite lookup_insert_ne; [done|].
        rewrite Hpre. intros Heq. by apply append_inj_l in Heq. }
  specialize (Hg Hkey).
  unfold step in *. fold (key_of g) in *.
  destruct (g_pc g) eqn:Hpc; cbn [storage Get Add Complete Redis.store] in *.
  - (* AtGet *)
    assert (Hnw : winner key g = false).
    { unfold winner. rewrite Hpc, Hg. cbn. by rewrite andb_false_r. }
    assert (Hret : forall p cs,
              match p with AtServe | AtComplete => false | _ => true end = true ->
              count is_handler cs = 0%nat ->
              one_winner E T0 P key σ (<[i := goto g p cs]> gs)).
    { intros p cs Hp Hcs.
      apply (one_winner_update σ σ gs i g); try done.
      - apply on_track_goto. rewrite Hg, Hcs. destruct p; cbn in *; done || lia.
      - left. split; [|eauto]. rewrite winner_goto, Hnw, Hg, Hcs.
        destruct p; cbn in *; try done; by rewrite andb_false_r. }
    case_bool_decide as Hempty; [by apply Hret|].
    rewrite redis_Get_up in * by done.
    destruct (Redis.live _ _) as [e|]; [destruct (bool_decide _)|]; cbn;
      by apply Hret.
  - (* AtAdd *)
    assert (Hnw : winner key g = false).
    { unfold winner. rewrite Hpc, Hg. cbn. by rewrite andb_false_r. }
    destruct (Redis.live (Redis.client σ) (Redis.keyPrefix σ +:+ key_of g))
      as [e|] eqn:Hl.
    + rewrite (redis_Add_exists σ _ e) in * by done. cbn.
      apply (one_winner_update σ _ gs i g); try done.
      * apply on_track_goto. rewrite Hg. cbn. lia.
      * left. split; [|eauto]. rewrite winner_goto, Hnw, Hg. cbn.
        by rewrite andb_false_r.
    + rewrite redis_Add_fresh in * by done. cbn in *.
      apply (one_winner_update σ _ gs i g); try done; try lia.
      * apply on_track_goto. rewrite Hg. cbn. lia.
      * right. split; [done|]. split.
        { rewrite winner_goto. by rewrite bool_decide_eq_true_2. }
        split.
        { destruct Hwin as [H0|[_ (e & Hdb & Hlast)]]; [done|].
          rewrite Hpre, Hkey in Hl.
          by rewrite (lasting_live σ e Hdb Hlast Htime) in Hl. }
        cbn. rewrite Hpre, Hkey, lookup_insert_eq. eexists. split; [done|].
        unfold lasting. cbn. rewrite Hexp.
        destruct (0 <? E) eqn:HposE; [|by left].
        apply Z.ltb_lt in HposE. right. split; [done|].
        eexists. split; [done|]. lia.
  - (* AtServe *)
    cbn. apply (one_winner_update σ _ gs i g); try done.
    + apply on_track_goto. rewrite Hg. cbn. lia.
    + left. split; [|eauto]. rewrite winner_goto. unfold winner.
      rewrite Hpc. done.
  - (* AtComplete *)
    assert (Hw : winner key g = true).
    { unfold winner. rewrite Hpc. by rewrite bool_decide_eq_true_2. }
    rewrite redis_Complete_up in * by done. cbn in *.
    apply (one_winner_update σ _ gs i g); try done; try lia.
    + apply on_track_goto. rewrite Hg. cbn. lia.
    + left. split.
      * rewrite winner_goto, Hw, Hg. by rewrite bool_decide_eq_true_2.
      * intros e Hdb Hlast.
        cbn. rewrite Hpre, Hkey, lookup_insert_eq. eexists. split; [done|].
        rewrite (lasting_live σ e Hdb Hlast Htime). done.
  - (* Returned *)
    cbn. rewrite list_insert_id by done. done.
Qed.

End OneClaimWins.

Lemma elapsed_nonneg (acts : list action) :
  forallb tick_ok acts = true -> 0 <= elapsed acts.
Proof.
  induction acts as [|[i|d] acts IH]; cbn; intros H; [lia|by apply IH|].
  apply andb_true_iff in H as [Hd H]. apply Z.leb_le in Hd.
  specialize (IH H). lia.
Qed.

Lemma run_redis_keeps_one_winner (E T0 : Z) (P key : string) (acts : list action) :
  valid_expiration E ->
  forall (σ : Redis.redisStorage) (gs : list goroutine),
    one_winner E T0 P key σ gs ->
    forallb tick_ok acts = true ->
    (0 < E -> Redis.now (Redis.client σ) + elapsed acts < T0 + E) ->
    one_winner E T0 P key (run_redis σ gs acts).1 (run_redis σ gs acts).2.
Proof.
  intros HE. induction acts as [|a acts IH]; intros σ gs Hinv Hticks Htime; [done|].
  cbn in Hticks. apply andb_true_iff in Hticks as [Ha Hticks].
  pose proof (elapsed_nonneg acts Hticks) as Hge.
  unfold run_redis. cbn [fold_left].
  destruct a as [i|d].
  - cbn [act sched_step]. cbn in Htime.
    destruct (gs !! i) as [g|] eqn:Hi.
    + assert (Hnow : 0 < E -> Redis.now (Redis.client σ) < T0 + E).
      { intros HposE. specialize (Htime HposE). lia. }
      destruct (step_keeps_one_winner E T0 P key HE σ gs i g Hinv Hnow Hi)
        as [Hinv' Hnow'].
      destruct (step (New Redis.store) σ g) as [σ1 g1]. cbn in Hinv', Hnow'.
      apply IH; [done|done|]. rewrite Hnow'. done.
    + by apply IH.
  - cbn [act fst snd]. cbn in Ha, Htime. apply Z.leb_le in Ha.
    apply IH; [|done|].
    + destruct Hinv as (Hf & Hexp & Hpre & Hnow & Hok & Hwin).
      repeat split; try done. cbn. lia.
    + intros HposE. specialize (Htime HposE). cbn. lia.
Qed.

Lemma handler_runs_le_winners (key : string) (gs : list goroutine) :
  Forall (on_track key) gs -> (handler_runs key gs <= winners key gs)%nat.
Proof.
  intros Hok. apply total_le. eapply Forall_impl; [exact Hok|].
  intros g Hg. cbn beta in *. unfold on_track, winner in *.
  case_bool_decide as Hkey; [|lia].
  specialize (Hg Hkey). cbn.
  destruct (g_pc g); cbn; try lia.
  destruct (handled g) as [|[|n]]; cbn; lia.
Qed.

Lemma one_winner_spawn (s : Redis.redisStorage) (key : string) (rs : list Request) :
  Redis.fault (Redis.client s) = None ->
  one_winner (Redis.expiry s) (Redis.now (Redis.client s)) (Redis.keyPrefix s) key
    s (map spawn rs).
Proof.
  intros Hf. repeat split; try done.
  - apply Forall_map. apply Forall_true. intros r. by intros _.
  - left. apply total_zero. apply Forall_map. apply Forall_true. intros r.
    cbn. unfold winner. cbn. by rewrite andb_false_r.
Qed.

(** C4, as the code has it, for the distributed store.  On a service that
    answers, for a key without a live record: of [N + 1] claims of the
    key, whatever the order the service takes them in, one returns nil and
    every other returns the error that the key already exists.  And
    however the steps of any requests are interleaved, with the clock
    advancing in between, as long as a record written by these requests
    has not expired, the requests with the key execute the wrapped handler
    at most once between them. *)
Theorem redis_one_claim_wins (s : Redis.redisStorage) (key : string) (N : nat)
    (rs : list Request) (acts : list action) :
  Redis.fault (Redis.client s) = None ->
  valid_expiration (Redis.expiry s) ->
  Redis.live (Redis.client s) (Redis.keyPrefix s +:+ key) = None ->
  within_expiry (Redis.expiry s) acts = true ->
  (claim_all Redis.store s key (Datatypes.S N)).2 =
    None :: replicate N (Some (errorString "the key %q already exists in redis" [key]))
  /\ (handler_runs key (run_redis s (map spawn rs) acts).2 <= 1)%nat.
Proof.
  intros Hf Hv Hl Hwithin. split; [by apply claim_all_redis_fresh|].
  unfold within_expiry in Hwithin. apply andb_true_iff in Hwithin as [Hticks Hexp].
  pose proof (run_redis_keeps_one_winner (Redis.expiry s) (Redis.now (Redis.client s))
                (Redis.keyPrefix s) key acts Hv s (map spawn rs)
                (one_winner_spawn s key rs Hf) Hticks) as Hinv.
  destruct Hinv as (_ & _ & _ & _ & Hok & Hwin).
  - intros Hpos. apply orb_true_iff in Hexp as [Hle|Hlt].
    + apply Z.leb_le in Hle. lia.
    + apply Z.ltb_lt in Hlt. lia.
  - pose proof (handler_runs_le_winners key _ Hok) as Hle.
    destruct Hwin as [H0|[H1 _]]; lia.
Qed.

Lemma redis_one_claim_wins_witness :
  let r := request_with_key "deadbeef" in
  (claim_all Redis.store redis0 "deadbeef" 3).2 =
    None :: replicate 2
              (Some (errorString "the key %q already exists in redis" ["deadbeef"]))
  /\ (handler_runs "deadbeef"
        (run_redis redis0 (map spawn [r; r; request_with_key "cafe"])
           [Step 0; Step 1; Tick 100; Step 1; Step 0; Step 1; Step 2; Tick 200;
            Step 1; Step 2; Step 2; Step 2; Step 0]).2 <= 1)%nat.
Proof.
  apply (redis_one_claim_wins redis0 "deadbeef" 2
           [request_with_key "deadbeef"; request_with_key "deadbeef";
            request_with_key "cafe"]
           [Step 0; Step 1; Tick 100; Step 1; Step 0; Step 1; Step 2; Tick 200;
            Step 1; Step 2; Step 2; Step 2; Step 0]).
  - reflexivity.
  - left. vm_compute. discriminate.
  - vm_compute. reflexivity.
  - vm_compute. reflexivity.
Defined.

Example redis_one_claim_wins_run :
  let r := request_with_key "deadbeef" in
  let gs := (run_redis redis0 (map spawn [r; r; request_with_key "cafe"])
               [Step 0; Step 1; Tick 100; Step 1; Step 0; Step 1; Step 2; Tick 200;
                Step 1; Step 2; Step 2; Step 2; Step 0]).2 in
  map g_pc gs = [Returned; Returned; Returned]
  /\ map (fun g => answers (g_calls g)) gs = [[500]; []; []]
  /\ handler_runs "deadbeef" gs = 1%nat
  /\ handler_runs "cafe" gs = 1%nat.
Proof. vm_compute. done. Qed.

(** C4, as the claim states it, fails.  The key [deadbeef] on the
    distributed store with an expiry of 1000: a first request executes
    the handler and completes; after 1000 on the clock the record has
    expired, and a repeated request with the same key executes the handler
    again. *)
Lemma redis_handler_runs_again_after_expiry :
  let r := request_with_key "deadbeef" in
  let gs := (run_redis redis0 [spawn r; spawn r]
               [Step 0; Step 0; Step 0; Step 0; Tick 1000;
                Step 1; Step 1; Step 1; Step 1]).2 in
  map g_calls gs =
    [[StorageGet "deadbeef"; StorageAdd "deadbeef"; NextServeHTTP r;
      StorageComplete "deadbeef"];
     [StorageGet "deadbeef"; StorageAdd "deadbeef"; NextServeHTTP r;
      StorageComplete "deadbeef"]]
  /\ handler_runs "deadbeef" gs = 2%nat.
Proof. vm_compute. done. Qed.

(** * Further properties of the package *)

(** ** The calls of [Verify], whatever the store *)


(** X2. When the key is new and [Add] succeeds but [Complete] fails, the
    wrapped handler has been executed once and the error responder is
    then called with 500 and the error of [Complete] wrapped; on the
    response recorder of the test the status stays the one the handler
    wrote. *)
Theorem Verify_Complete_error {S : Type} (s : state S) (σ σ1 σ2 σ3 : S) (r : Request)
    (err : error) :
  let key := request_key r in
  key <> "" ->
  Get (storage s) σ key = (σ1, (None, None)) ->
  Add (storage s) σ1 key = (σ2, None) ->
  Complete (storage s) σ2 key = (σ3, Some err) ->
  Verify s σ r =
    (σ3, [StorageGet key; StorageAdd key; NextServeHTTP r; StorageComplete key;
          ErrResponder (wrapError "could not complete request: %w" [] err) 500 r])
  /\ Code (respond test_collaborators (Verify s σ r).2 NewRecorder) = StatusOK.
Proof.
  intros key Hkey HGet HAdd HComplete.
  assert (HV : Verify s σ r =
    (σ3, [StorageGet key; StorageAdd key; NextServeHTTP r; StorageComplete key;
          ErrResponder (wrapError "could not complete request: %w" [] err) 500 r])).
  { unfold Verify. fold (request_key r). fold key.
    rewrite bool_decide_eq_false_2 by done. by rewrite HGet, HAdd, HComplete. }
  split; [done|]. by rewrite HV.
Qed.

Lemma Verify_Complete_error_witness :
  let s := New (mkStorage Memory.memoryStorage Memory.Add Memory.Get
                  (fun m _ => (m, Some connection_refused))) in
  let r := request_with_key "deadbeef" in
  Verify s Memory.NewMemoryStorage r =
    ((Memory.Add Memory.NewMemoryStorage "deadbeef").1,
     [StorageGet "deadbeef"; StorageAdd "deadbeef"; NextServeHTTP r;
      StorageComplete "deadbeef";
      ErrResponder (wrapError "could not complete request: %w" [] connection_refused)
        500 r])
  /\ Code (respond test_collaborators (Verify s Memory.NewMemoryStorage r).2 NewRecorder)
     = StatusOK.
Proof.
  apply (Verify_Complete_error
           (New (mkStorage Memory.memoryStorage Memory.Add Memory.Get
                   (fun m _ => (m, Some connection_refused))))
           Memory.NewMemoryStorage Memory.NewMemoryStorage
           (Memory.Add Memory.NewMemoryStorage "deadbeef").1
           (Memory.Add Memory.NewMemoryStorage "deadbeef").1
           (request_with_key "deadbeef") connection_refused).
  - vm_compute. discriminate.
  - vm_compute. reflexivity.
  - vm_compute. reflexivity.
  - vm_compute. reflexivity.
Defined.

(** ** The in-memory store: other keys, and the keys it holds *)

Lemma Verify_memory_no_key (m : Memory.memoryStorage) (r : Request) :
  request_key r = "" ->
  Verify (New Memory.store) m r =
  (m, [ErrResponder (errorString "no Idempotency-Key set" []) StatusBadRequest r]).
Proof. intros H. unfold Verify. fold (request_key r). by rewrite bool_decide_eq_true_2. Qed.

(** X3. With the in-memory store a request does not touch the status of
    any key but its own: not when it is served to its end, and not at any
    single step when requests are served at the same time. *)
Theorem memory_other_keys_untouched (m : Memory.memoryStorage) (r : Request)
    (g : goroutine) (k' : string) :
  k' <> request_key r ->
  k' <> key_of g ->
  Memory.storage (Verify (New Memory.store) m r).1 !! k' = Memory.storage m !! k'
  /\ Memory.storage (step (New Memory.store) m g).1 !! k' = Memory.storage m !! k'.
Proof.
  intros Hr Hg. split.
  - destruct (decide (request_key r = "")) as [He|Hne].
    { by rewrite Verify_memory_no_key. }
    rewrite Verify_memory by done. fold (request_key r).
    destruct (Memory.storage m !! request_key r) as [[[]]|]; cbn; try done.
    by rewrite !lookup_insert_ne.
  - unfold step. fold (key_of g). destruct (g_pc g); cbn; try done.
    + case_bool_decide; [done|].
      by destruct (Memory.storage m !! key_of g) as [[[]]|].
    + by rewrite lookup_insert_ne.
    + by rewrite lookup_insert_ne.
Qed.

Lemma memory_other_keys_untouched_witness :
  let m := (Memory.Add Memory.NewMemoryStorage "cafe").1 in
  Memory.storage (Verify (New Memory.store) m (request_with_key "deadbeef")).1 !! "cafe"
  = Memory.storage m !! "cafe"
  /\ Memory.storage (step (New Memory.store) m found_nothing).1 !! "cafe"
     = Memory.storage m !! "cafe".
Proof.
  apply (memory_other_keys_untouched (Memory.Add Memory.NewMemoryStorage "cafe").1
           (request_with_key "deadbeef") found_nothing "cafe").
  - vm_compute. discriminate.
  - vm_compute. discriminate.
Defined.

Lemma Verify_memory_dom (m : Memory.memoryStorage) (r : Request) :
  dom (Memory.storage m) ⊆ dom (Memory.storage (Verify (New Memory.store) m r).1)
  /\ dom (Memory.storage (Verify (New Memory.store) m r).1)
     ⊆ dom (Memory.storage m) ∪ {[request_key r]}.
Proof.
  assert (Hsame : dom (Memory.storage m) ⊆ dom (Memory.storage m)
                  /\ dom (Memory.storage m)
                     ⊆ dom (Memory.storage m) ∪ {[request_key r]}).
  { split; [done|]. apply union_subseteq_l. }
  destruct (decide (request_key r = "")) as [He|Hne].
  { by rewrite Verify_memory_no_key. }
  rewrite Verify_memory by done. fold (request_key r).
  destruct (Memory.storage m !! request_key r) as [[[]]|]; cbn; try done.
  rewrite !dom_insert_L.
  split; apply elem_of_subseteq; intros x;
    rewrite !elem_of_union, !elem_of_singleton; tauto.
Qed.

(** X4. The in-memory store never forgets a key and learns only the keys
    of the requests: after any requests served one after the other, the
    keys it holds are those it held, with at most the keys of the
    requests added. *)
Theorem memory_keys_only_grow (m : Memory.memoryStorage) (rs : list Request) :
  dom (Memory.storage m) ⊆ dom (Memory.storage (serve_all (New Memory.store) m rs).1)
  /\ dom (Memory.storage (serve_all (New Memory.store) m rs).1)
     ⊆ dom (Memory.storage m) ∪ list_to_set (map request_key rs).
Proof.
  revert m. induction rs as [|r rs IH]; intros m.
  { cbn. split; [done|]. apply union_subseteq_l. }
  cbn [serve_all map list_to_set].
  pose proof (Verify_memory_dom m r) as [H1 H2].
  destruct (Verify (New Memory.store) m r) as [m1 cs].
  specialize (IH m1) as [H3 H4].
  destruct (serve_all (New Memory.store) m1 rs) as [m2 css].
  cbn in *. split.
  - by etrans.
  - apply elem_of_subseteq. intros x Hx.
    apply H4 in Hx. apply elem_of_union in Hx as [Hx|Hx].
    + apply H2 in Hx. apply elem_of_union in Hx as [Hx|Hx].
      * apply elem_of_union. by left.
      * apply elem_of_union. right. apply elem_of_union. by left.
    + apply elem_of_union. right. apply elem_of_union. by right.
Qed.

(** ** [incompleteStorage]: a key stays in process *)

(** X5. With [incompleteStorage], the same request with a key the store
    has not seen served [N + 1] times: the first executes the wrapped
    handler and calls [Complete], which changes nothing, and each of the
    other [N] is answered 409 Conflict. *)
Theorem incomplete_all_conflict (N : nat) (f : Incomplete.incompleteStorage)
    (r : Request) :
  let key := request_key r in
  key <> "" ->
  Memory.storage (Incomplete.memoryStorage f) !! key = None ->
  (serve_all (New Incomplete.store) f (replicate (Datatypes.S N) r)).2 =
    [StorageGet key; StorageAdd key; NextServeHTTP r; StorageComplete key]
    :: replicate N
         [StorageGet key;
          ErrResponder (errorString "request already in progress" []) StatusConflict r]
  /\ Memory.storage
       (Incomplete.memoryStorage
          (serve_all (New Incomplete.store) f (replicate (Datatypes.S N) r)).1) !! key
     = Some in_process.
Proof.
  intros key Hkey Habsent.
  assert (Hheld : forall n f1,
            Memory.storage (Incomplete.memoryStorage f1) !! key = Some in_process ->
            serve_all (New Incomplete.store) f1 (replicate n r) =
            (f1, replicate n
                   [StorageGet key;
                    ErrResponder (errorString "request already in progress" [])
                      StatusConflict r])).
  { intros n f1 Hf1. induction n as [|n IH]; [done|].
    cbn [replicate serve_all].
    rewrite (Verify_found_in_process (New Incomplete.store) f1 f1 r Hkey).
    - by rewrite IH.
    - cbn. fold (request_key r). fold key. unfold Incomplete.Get, Memory.Get.
      rewrite Hf1. by destruct f1. }
  assert (HV : Verify (New Incomplete.store) f r =
            ((Incomplete.Add f key).1,
             [StorageGet key; StorageAdd key; NextServeHTTP r; StorageComplete key])).
  { unfold Verify. fold (request_key r). fold key.
    rewrite bool_decide_eq_false_2 by done. cbn. by rewrite Habsent. }
  cbn [replicate serve_all]. rewrite HV.
  rewrite Hheld; [|cbn; by rewrite lookup_insert_eq].
  cbn. by rewrite lookup_insert_eq.
Qed.

Lemma incomplete_all_conflict_witness :
  let r := request_with_key "deadbeef" in
  (serve_all (New Incomplete.store) Incomplete.newIncompleteStorage (replicate 4 r)).2 =
    [StorageGet "deadbeef"; StorageAdd "deadbeef"; NextServeHTTP r;
     StorageComplete "deadbeef"]
    :: replicate 3
         [StorageGet "deadbeef";
          ErrResponder (errorString "request already in progress" []) StatusConflict r]
  /\ Memory.storage
       (Incomplete.memoryStorage
          (serve_all (New Incomplete.store) Incomplete.newIncompleteStorage
             (replicate 4 r)).1) !! "deadbeef"
     = Some in_process.
Proof.
  apply (incomplete_all_conflict 3 Incomplete.newIncompleteStorage
           (request_with_key "deadbeef")).
  - vm_compute. discriminate.
  - vm_compute. reflexivity.
Defined.

(** ** The options of [New] and of [NewRedisStorage] *)

Lemma fold_options (os : list option_shape) (h : responders) :
  fold_left (fun s opt => match opt with Some opt => opt s | None => s end)
    (map option_of os) h
  = {| the_restorer := last_restorer os (the_restorer h);
       the_errResponder := last_errResponder os (the_errResponder h) |}.
Proof.
  revert h. induction os as [|o os IH]; intros h; [by destruct h|].
  cbn [map fold_left]. rewrite IH. by destruct o.
Qed.

(** X6. The state that [New] builds from a list of options, each of them
    [WithRestorer f], [WithErrorResponder f] or nil, has the restorer of
    the last [WithRestorer] of the list, and the restorer that does
    nothing when there is none; and the error responder of the last
    [WithErrorResponder], [http.Error] when there is none.  Nil options
    and the options for the other responder make no difference. *)
Theorem New_last_option_wins (os : list option_shape) :
  the_restorer (New_responders (map option_of os))
  = last_restorer os (the_restorer default_responders)
  /\ the_errResponder (New_responders (map option_of os))
     = last_errResponder os (the_errResponder default_responders).
Proof. unfold New_responders. by rewrite fold_options. Qed.

Lemma last_restorer_none (os : list option_shape)
    (d : string -> ResponseRecorder -> Request -> ResponseRecorder) :
  Forall (fun o => match o with SetRestorer _ => False | _ => True end) os ->
  last_restorer os d = d.
Proof. induction 1 as [|o os Ho _ IH]; [done|]. by destruct o. Qed.

(** X7. With a state built without [WithRestorer], a request whose key
    [Get] reports as completed leaves the response writer as it was:
    nothing is written by the middleware, the wrapped handler is not
    executed, and the store is the one [Get] returned. *)
Theorem default_restorer_writes_nothing {S : Type} (s : state S) (σ σ1 : S)
    (os : list option_shape) (next : ResponseRecorder -> Request -> ResponseRecorder)
    (w : ResponseRecorder) (r : Request) :
  request_key r <> "" ->
  Get (storage s) σ (request_key r) = (σ1, (Some completed, None)) ->
  Forall (fun o => match o with SetRestorer _ => False | _ => True end) os ->
  ServeHTTP s (New_responders (map option_of os)) next σ w r = (σ1, w).
Proof.
  intros Hkey HGet Hos. unfold ServeHTTP, Verify. fold (request_key r).
  rewrite bool_decide_eq_false_2 by done. rewrite HGet. cbn.
  unfold New_responders. rewrite fold_options. cbn.
  by rewrite last_restorer_none.
Qed.

Lemma default_restorer_writes_nothing_witness :
  let m := (Memory.Complete Memory.NewMemoryStorage "deadbeef").1 in
  ServeHTTP (New Memory.store)
    (New_responders
       (map option_of [NilOption; SetErrorResponder (fun _ _ w _ => WriteHeader 418 w)]))
    (fun w _ => WriteHeader StatusOK w) m NewRecorder (request_with_key "deadbeef")
  = (m, NewRecorder).
Proof.
  apply (default_restorer_writes_nothing (New Memory.store)
           (Memory.Complete Memory.NewMemoryStorage "deadbeef").1
           (Memory.Complete Memory.NewMemoryStorage "deadbeef").1
           [NilOption; SetErrorResponder (fun _ _ w _ => WriteHeader 418 w)]
           (fun w _ => WriteHeader StatusOK w) NewRecorder
           (request_with_key "deadbeef")).
  - vm_compute. discriminate.
  - vm_compute. reflexivity.
  - repeat constructor.
Defined.

Lemma fold_prefixes (ps : list (option string)) (s : Redis.redisStorage) :
  fold_left (fun s opt => match opt with Some opt => opt s | None => s end)
    (map (fmap Redis.WithKeyPrefix) ps) s
  = {| Redis.client := Redis.client s;
       Redis.expiry := Redis.expiry s;
       Redis.keyPrefix := default (Redis.keyPrefix s) (last (omap id ps)) |}.
Proof.
  revert s. induction ps as [|p ps IH]; intros s; [by destruct s|].
  cbn [map fold_left]. rewrite IH. destruct p as [p|]; cbn; [|done].
  rewrite last_cons. by destruct (last (omap id ps)).
Qed.

(** X8. [NewRedisStorage] with a list of options, each [WithKeyPrefix p]
    or nil, keeps the client and the expiry it is given, and its prefix is
    the one of the last [WithKeyPrefix] of the list, [idemp:] when there
    is none. *)
Theorem NewRedisStorage_prefix (c : Redis.Client) (e : Z) (ps : list (option string)) :
  Redis.NewRedisStorage c e (map (fmap Redis.WithKeyPrefix) ps)
  = {| Redis.client := c; Redis.expiry := e;
       Redis.keyPrefix := default "idemp:" (last (omap id ps)) |}.
Proof. unfold Redis.NewRedisStorage. by rewrite fold_prefixes. Qed.

(** ** The context carrier *)

Lemma Value_with_values (ctx : Context) (kvs : list (any * any)) (key : any) :
  Forall (fun kv => kv.1 <> key) kvs ->
  Value (with_values ctx kvs) key = Value ctx key.
Proof.
  unfold with_values. revert ctx.
  induction kvs as [|kv kvs IH]; intros ctx Hkvs; [done|].
  apply Forall_cons in Hkvs as [Hkv Hkvs]. cbn [fold_left].
  rewrite IH by done. cbn. by rewrite bool_decide_eq_false_2.
Qed.

(** X9. A key put into a context by [NewContext] is what [FromContext]
    returns, with [true], from that context and from every context derived
    from it by values under other keys, whatever the context held before:
    an earlier key of the package is shadowed, and a value under the plain
    string [idempotency-key] does not interfere. *)
Theorem FromContext_NewContext (ctx : Context) (idempotencyKey : string)
    (kvs : list (any * any)) :
  Forall (fun kv => kv.1 <> idempotencyContextKey) kvs ->
  FromContext (with_values (NewContext ctx idempotencyKey) kvs) = (idempotencyKey, true).
Proof.
  intros Hkvs. unfold FromContext. rewrite Value_with_values by done.
  cbn. by rewrite bool_decide_eq_true_2.
Qed.

Lemma FromContext_NewContext_witness :
  FromContext
    (with_values
       (NewContext (NewContext Background "older") "b2ab44c6-ed51-4453-ab00-90779453f2b3")
       [(any_string "idempotency-key", any_string "other");
        (any_other "int" "7", any_other "bool" "true")])
  = ("b2ab44c6-ed51-4453-ab00-90779453f2b3", true).
Proof.
  apply (FromContext_NewContext (NewContext Background "older")
           "b2ab44c6-ed51-4453-ab00-90779453f2b3"
           [(any_string "idempotency-key", any_string "other");
            (any_other "int" "7", any_other "bool" "true")]).
  repeat constructor; cbn; discriminate.
Defined.

(** X10. [NewContext] hides no value of another key, and a context that
    was built without [NewContext] gives the empty string and [false]. *)
Theorem NewContext_other_keys (ctx : Context) (idempotencyKey : string) (key : any)
    (kvs : list (any * any)) :
  key <> idempotencyContextKey ->
  Forall (fun kv => kv.1 <> idempotencyContextKey) kvs ->
  Value (NewContext ctx idempotencyKey) key = Value ctx key
  /\ FromContext (with_values Background kvs) = ("", false).
Proof.
  intros Hkey Hkvs. split.
  - cbn. rewrite bool_decide_eq_false_2; [done|]. congruence.
  - unfold FromContext. by rewrite Value_with_values.
Qed.

Lemma NewContext_other_keys_witness :
  Value (NewContext (WithValue Background (any_string "idempotency-key") (any_string "x"))
           "deadbeef") (any_string "idempotency-key")
  = Value (WithValue Background (any_string "idempotency-key") (any_string "x"))
      (any_string "idempotency-key")
  /\ FromContext
       (with_values Background [(any_string "idempotency-key", any_string "x")])
     = ("", false).
Proof.
  apply (NewContext_other_keys
           (WithValue Background (any_string "idempotency-key") (any_string "x"))
           "deadbeef" (any_string "idempotency-key")
           [(any_string "idempotency-key", any_string "x")]).
  - discriminate.
  - repeat constructor; cbn; discriminate.
Defined.

(** ** The distributed store: what a call touches *)

Lemma same_but_refl (k : string) (s : Redis.redisStorage) : same_but k s s.
Proof. by repeat split. Qed.

Lemma same_but_trans (k : string) (s1 s2 s3 : Redis.redisStorage) :
  same_but k s1 s2 -> same_but k s2 s3 -> same_but k s1 s3.
Proof.
  intros (H1 & H2 & H3 & H4 & H5) (G1 & G2 & G3 & G4 & G5).
  repeat split; try congruence.
  intros k' Hk'. rewrite G5 by done. by apply H5.
Qed.

Lemma same_but_store_entry (s : Redis.redisStorage) (k : string) (e : Redis.entry) :
  same_but k s (Redis.with_client s (Redis.store_entry (Redis.client s) k e)).
Proof.
  repeat split; try done. intros k' Hk'. cbn. by rewrite lookup_insert_ne.
Qed.

Lemma redis_Add_same_but (s : Redis.redisStorage) (key : string) :
  same_but (Redis.keyPrefix s +:+ key) s (Redis.Add s key).1.
Proof.
  unfold Redis.Add, Redis.client_SetNX.
  destruct (Redis.fault (Redis.client s)); cbn.
  { rewrite with_client_id. apply same_but_refl. }
  destruct (_ && _); cbn.
  { rewrite with_client_id. apply same_but_refl. }
  destruct (Redis.live _ _); cbn.
  - rewrite with_client_id. apply same_but_refl.
  - apply same_but_store_entry.
Qed.

Lemma redis_Get_same (s : Redis.redisStorage) (key : string) : (Redis.Get s key).1 = s.
Proof.
  unfold Redis.Get, Redis.client_Get.
  destruct (Redis.fault (Redis.client s)) as [e|]; cbn.
  - destruct (errors_Is e Redis.Nil); cbn; apply with_client_id.
  - destruct (Redis.live _ _); cbn; apply with_client_id.
Qed.

Lemma redis_Complete_same_but (s : Redis.redisStorage) (key : string) :
  same_but (Redis.keyPrefix s +:+ key) s (Redis.Complete s key).1.
Proof.
  unfold Redis.Complete, Redis.client_Set.
  destruct (Redis.fault (Redis.client s)); cbn.
  - rewrite with_client_id. apply same_but_refl.
  - apply same_but_store_entry.
Qed.

(** X11. In the distributed store [Get] changes nothing, and a call of
    [Add] or of [Complete] that returns an error changes nothing either: a
    claim that fails, for an existing key or for a service that cannot be
    reached, leaves the record as it was. *)
Theorem redis_failed_call_changes_nothing (s : Redis.redisStorage) (key : string) :
  (Redis.Get s key).1 = s
  /\ ((Redis.Add s key).2 = None \/ (Redis.Add s key).1 = s)
  /\ ((Redis.Complete s key).2 = None \/ (Redis.Complete s key).1 = s).
Proof.
  split; [apply redis_Get_same|]. split.
  - unfold Redis.Add, Redis.client_SetNX.
    destruct (Redis.fault (Redis.client s)); cbn.
    { right. apply with_client_id. }
    destruct (_ && _); cbn.
    { right. apply with_client_id. }
    destruct (Redis.live _ _); cbn; [right; apply with_client_id|by left].
  - unfold Redis.Complete, Redis.client_Set.
    destruct (Redis.fault (Redis.client s)); cbn; [right; apply with_client_id|by left].
Qed.

Lemma Verify_redis_same_but (s : Redis.redisStorage) (r : Request) :
  same_but (Redis.keyPrefix s +:+ request_key r) s (Verify (New Redis.store) s r).1.
Proof.
  unfold Verify. fold (request_key r).
  case_bool_decide; [apply same_but_refl|].
  cbn [storage Get Add Complete Redis.store].
  pose proof (redis_Get_same s (request_key r)) as HG.
  destruct (Redis.Get s (request_key r)) as [s1 [st [err|]]]; cbn in HG; subst s1.
  { apply same_but_refl. }
  destruct st as [st|].
  { destruct (InProcess st); apply same_but_refl. }
  pose proof (redis_Add_same_but s (request_key r)) as HA.
  destruct (Redis.Add s (request_key r)) as [s2 [err|]]; cbn in HA; [done|].
  pose proof (redis_Complete_same_but s2 (request_key r)) as HC.
  assert (Hp : Redis.keyPrefix s2 = Redis.keyPrefix s) by apply HA.
  rewrite Hp in HC.
  destruct (Redis.Complete s2 (request_key r)) as [s3 [err|]]; cbn in HC |- *;
    by apply (same_but_trans _ s s2 s3).
Qed.

Lemma redis_Get_same_but (k : string) (s s' : Redis.redisStorage) (key : string) :
  same_but k s s' ->
  Redis.keyPrefix s +:+ key <> k ->
  (Redis.Get s' key).2 = (Redis.Get s key).2.
Proof.
  intros (H1 & H2 & H3 & H4 & H5) Hk.
  unfold Redis.Get, Redis.client_Get, Redis.live.
  rewrite H2, H3, H4, (H5 _ Hk).
  destruct (Redis.fault (Redis.client s)) as [e|]; cbn.
  - by destruct (errors_Is e Redis.Nil).
  - destruct (Redis.db (Redis.client s) !! _) as [en|]; [|done].
    destruct (Redis.expireAt en) as [t|]; [|done].
    by destruct (Redis.now (Redis.client s) <? t).
Qed.

(** X12. With the distributed store a request touches at most the record
    of its own key under the prefix: the clock, the fault, the expiry and
    the prefix stay, every other record stays, and [Get] for any other key
    reports afterwards what it reported before. *)
Theorem redis_other_keys_untouched (s : Redis.redisStorage) (r : Request) (key' : string) :
  key' <> request_key r ->
  same_but (Redis.keyPrefix s +:+ request_key r) s (Verify (New Redis.store) s r).1
  /\ (Redis.Get (Verify (New Redis.store) s r).1 key').2 = (Redis.Get s key').2.
Proof.
  intros Hkey. split; [apply Verify_redis_same_but|].
  apply (redis_Get_same_but (Redis.keyPrefix s +:+ request_key r)).
  - apply Verify_redis_same_but.
  - intros Heq. by apply append_inj_l in Heq.
Qed.

Lemma redis_other_keys_untouched_witness :
  same_but ("idemp:" +:+ "cafe") redis_claimed
    (Verify (New Redis.store) redis_claimed (request_with_key "cafe")).1
  /\ (Redis.Get (Verify (New Redis.store) redis_claimed (request_with_key "cafe")).1
        "deadbeef").2
     = (Redis.Get redis_claimed "deadbeef").2.
Proof.
  apply (redis_other_keys_untouched redis_claimed (request_with_key "cafe") "deadbeef").
  vm_compute. discriminate.
Defined.

(** X13. On a service that cannot be reached, a request with a key is
    answered 500 Internal Server Error, once, whatever the error of the
    service is: the wrapped handler is not executed, the restorer is not
    invoked and the store stays as it was. *)
Theorem redis_unreachable_answers_500 (s : Redis.redisStorage) (r : Request)
    (cause : error) :
  request_key r <> "" ->
  Redis.fault (Redis.client s) = Some cause ->
  (Verify (New Redis.store) s r).1 = s
  /\ answers (Verify (New Redis.store) s r).2 = [500]
  /\ count is_handler (Verify (New Redis.store) s r).2 = 0%nat
  /\ count is_restorer (Verify (New Redis.store) s r).2 = 0%nat.
Proof.
  intros Hkey Hf. unfold Verify. fold (request_key r).
  rewrite bool_decide_eq_false_2 by done.
  cbn [storage Get Add Complete Redis.store].
  unfold Redis.Get, Redis.client_Get. rewrite Hf.
  destruct (errors_Is cause Redis.Nil); cbn.
  - rewrite !with_client_id. rewrite (redis_Add_fault s _ cause Hf). by cbn.
  - by rewrite with_client_id.
Qed.

Lemma redis_unreachable_answers_500_witness :
  (Verify (New Redis.store) redis_down (request_with_key "deadbeef")).1 = redis_down
  /\ answers (Verify (New Redis.store) redis_down (request_with_key "deadbeef")).2 = [500]
  /\ count is_handler (Verify (New Redis.store) redis_down (request_with_key "deadbeef")).2
     = 0%nat
  /\ count is_restorer (Verify (New Redis.store) redis_down (request_with_key "deadbeef")).2
     = 0%nat.
Proof.
  apply (redis_unreachable_answers_500 redis_down (request_with_key "deadbeef")
           connection_refused).
  - vm_compute. discriminate.
  - reflexivity.
Defined.

(** ** The distributed store: the life of a record *)

Lemma live_later (c : Redis.Client) (k : string) (e : Redis.entry) (d : Z) :
  Redis.live (Redis.elapse d (Redis.store_entry c k e)) k =
  match Redis.expireAt e with
  | Some t => if Redis.now c + d <? t then Some e else None
  | None => Some e
  end.
Proof. unfold Redis.live. cbn. by rewrite lookup_insert_eq. Qed.

Lemma live_elapse_None (c : Redis.Client) (k : string) (d : Z) :
  0 <= d -> Redis.live c k = None -> Redis.live (Redis.elapse d c) k = None.
Proof.
  intros Hd. unfold Redis.live. cbn.
  destruct (Redis.db c !! k) as [e|]; [|done].
  destruct (Redis.expireAt e) as [t|]; [|done].
  destruct (Redis.now c <? t) eqn:H1; [done|]. intros _.
  apply Z.ltb_ge in H1.
  by rewrite (proj2 (Z.ltb_ge (Redis.now c + d) t)) by lia.
Qed.

Lemma ltb_shift (n d E : Z) : (n + d <? n + E) = (d <? E).
Proof. destruct (Z.ltb_spec d E), (Z.ltb_spec (n + d) (n + E)); (done || lia). Qed.

(** X14. The life of a record of the distributed store, on a service
    that answers.  [Add] for a key without a live record returns nil and
    the record gets the expiry of the store as its time to live (none for
    an expiry of zero).  From then on [Get] reports the key in process
    until the expiry has passed, and nothing afterwards.  [Complete] at any
    time before that returns nil, and [Get] then reports the key completed
    until the same instant: completing does not prolong the record. *)
Theorem redis_record_lifetime (s : Redis.redisStorage) (key : string) (d1 d2 : Z) :
  let k := Redis.keyPrefix s +:+ key in
  let E := Redis.expiry s in
  let s1 := (Redis.Add s key).1 in
  let s2 := (Redis.Complete (redis_later d1 s1) key).1 in
  Redis.fault (Redis.client s) = None ->
  valid_expiration E ->
  Redis.live (Redis.client s) k = None ->
  0 <= d1 -> 0 <= d2 ->
  alive E d1 = true ->
  (Redis.Add s key).2 = None
  /\ Redis.PTTL (Redis.client s1) k = (if 0 <? E then E else -1)
  /\ (Redis.Get (redis_later (d1 + d2) s1) key).2
     = (if alive E (d1 + d2) then Some in_process else None, None)
  /\ (Redis.Complete (redis_later d1 s1) key).2 = None
  /\ (Redis.Get (redis_later d2 s2) key).2
     = (if alive E (d1 + d2) then Some completed else None, None).
Proof.
  intros k E s1 s2 Hf Hv Hl Hd1 Hd2 Halive.
  assert (Hs1 : s1 = Redis.with_client s
            (Redis.store_entry (Redis.client s) k
               {| Redis.value := "in-process";
                  Redis.expireAt :=
                    if 0 <? E then Some (Redis.now (Redis.client s) + E) else None |})).
  { subst s1. by rewrite redis_Add_fresh. }
  assert (Hlive1 : forall d,
            Redis.live (Redis.client (redis_later d s1)) k =
            if alive E d
            then Some {| Redis.value := "in-process";
                         Redis.expireAt :=
                           if 0 <? E then Some (Redis.now (Redis.client s) + E)
                           else None |}
            else None).
  { intros d. rewrite Hs1. cbn. rewrite live_later. cbn. unfold alive.
    destruct (0 <? E); cbn; [|done]. by rewrite ltb_shift. }
  assert (Hs2 : s2 = Redis.with_client (redis_later d1 s1)
            (Redis.store_entry (Redis.client (redis_later d1 s1)) k
               {| Redis.value := "done";
                  Redis.expireAt :=
                    if 0 <? E then Some (Redis.now (Redis.client s) + E) else None |})).
  { subst s2. rewrite redis_Complete_up by (by rewrite Hs1).
    cbn [fst]. replace (Redis.keyPrefix (redis_later d1 s1) +:+ key) with k
      by (by rewrite Hs1).
    by rewrite Hlive1, Halive. }
  repeat split.
  - by rewrite redis_Add_fresh.
  - unfold Redis.PTTL. specialize (Hlive1 0). rewrite Hs1 in *. cbn in *.
    rewrite live_store_entry_eq. cbn.
    destruct (0 <? E) eqn:HE; cbn; [|done].
    apply Z.ltb_lt in HE.
    rewrite (proj2 (Z.ltb_lt _ _)) by lia. cbn. lia.
  - rewrite redis_Get_up by (by rewrite Hs1).
    replace (Redis.keyPrefix (redis_later (d1 + d2) s1) +:+ key) with k
      by (by rewrite Hs1).
    rewrite Hlive1. by destruct (alive E (d1 + d2)).
  - by rewrite redis_Complete_up by (by rewrite Hs1).
  - rewrite redis_Get_up by (by rewrite Hs2, Hs1).
    replace (Redis.keyPrefix (redis_later d2 s2) +:+ key) with k
      by (by rewrite Hs2, Hs1).
    rewrite Hs2. cbn. rewrite live_later. rewrite Hs1. cbn. unfold alive.
    destruct (0 <? E); cbn; [|done].
    rewrite <- Z.add_assoc, ltb_shift. by destruct (d1 + d2 <? E).
Qed.

Lemma redis_record_lifetime_witness :
  let s1 := (Redis.Add redis0 "deadbeef").1 in
  let s2 := (Redis.Complete (redis_later 300 s1) "deadbeef").1 in
  (Redis.Add redis0 "deadbeef").2 = None
  /\ Redis.PTTL (Redis.client s1) ("idemp:" +:+ "deadbeef") = (if 0 <? 1000 then 1000 else -1)
  /\ (Redis.Get (redis_later (300 + 700) s1) "deadbeef").2
     = (if alive 1000 (300 + 700) then Some in_process else None, None)
  /\ (Redis.Complete (redis_later 300 s1) "deadbeef").2 = None
  /\ (Redis.Get (redis_later 700 s2) "deadbeef").2
     = (if alive 1000 (300 + 700) then Some completed else None, None).
Proof.
  apply (redis_record_lifetime redis0 "deadbeef" 300 700).
  - reflexivity.
  - left. vm_compute. discriminate.
  - vm_compute. reflexivity.
  - lia.
  - lia.
  - vm_compute. reflexivity.
Defined.

(** ** The distributed store: requests one after the other, in time *)

Lemma Verify_redis_fresh (s : Redis.redisStorage) (r : Request) :
  let k := Redis.keyPrefix s +:+ request_key r in
  let t := if 0 <? Redis.expiry s
           then Some (Redis.now (Redis.client s) + Redis.expiry s) else None in
  Redis.fault (Redis.client s) = None ->
  valid_expiration (Redis.expiry s) ->
  request_key r <> "" ->
  Redis.live (Redis.client s) k = None ->
  Verify (New Redis.store) s r =
  (Redis.with_client s
     (Redis.store_entry
        (Redis.store_entry (Redis.client s) k
           {| Redis.value := "in-process"; Redis.expireAt := t |})
        k {| Redis.value := "done"; Redis.expireAt := t |}),
   handled_calls r).
Proof.
  intros k t Hf Hv Hkey Hl. unfold Verify. fold (request_key r).
  rewrite bool_decide_eq_false_2 by done.
  cbn [storage Get Add Complete Redis.store].
  rewrite redis_Get_up by done. fold k. rewrite Hl.
  rewrite redis_Add_fresh by done. fold k t.
  rewrite redis_Complete_up by done. cbn. fold k.
  rewrite live_store_entry_eq. cbn. subst t.
  destruct (0 <? Redis.expiry s) eqn:HE; cbn; [|done].
  apply Z.ltb_lt in HE.
  by rewrite (proj2 (Z.ltb_lt _ _)) by lia.
Qed.

Lemma Verify_redis_done (s : Redis.redisStorage) (r : Request) (e : Redis.entry) :
  Redis.fault (Redis.client s) = None ->
  request_key r <> "" ->
  Redis.live (Redis.client s) (Redis.keyPrefix s +:+ request_key r) = Some e ->
  Redis.value e = "done" ->
  Verify (New Redis.store) s r = (s, restored_calls r).
Proof.
  intros Hf Hkey Hl Hdone. unfold Verify. fold (request_key r).
  rewrite bool_decide_eq_false_2 by done.
  cbn [storage Get Add Complete Redis.store].
  rewrite redis_Get_up by done. rewrite Hl, Hdone. done.
Qed.

Lemma sum_delays_nonneg (ds : list Z) : Forall (fun d => 0 <= d) ds -> 0 <= sum_delays ds.
Proof. induction 1; cbn; lia. Qed.

Lemma serve_timed_done (r : Request) (e : Redis.entry) (ds : list Z) :
  request_key r <> "" ->
  Redis.value e = "done" ->
  Forall (fun d => 0 <= d) ds ->
  forall σ : Redis.redisStorage,
    Redis.fault (Redis.client σ) = None ->
    Redis.db (Redis.client σ) !! (Redis.keyPrefix σ +:+ request_key r) = Some e ->
    (Redis.expireAt e = None
     \/ exists t, Redis.expireAt e = Some t
                  /\ Redis.now (Redis.client σ) + sum_delays ds < t) ->
    (serve_timed σ (map (fun d => (d, r)) ds)).2 = replicate (length ds) (restored_calls r).
Proof.
  intros Hkey Hdone Hds. induction Hds as [|d ds Hd Hds IH]; intros σ Hf Hdb Ht; [done|].
  pose proof (sum_delays_nonneg ds Hds) as Hsum.
  cbn [map serve_timed length replicate].
  assert (Hl : Redis.live (Redis.client (redis_later d σ))
                 (Redis.keyPrefix (redis_later d σ) +:+ request_key r) = Some e).
  { unfold Redis.live. cbn. rewrite Hdb.
    destruct Ht as [->|(t & -> & Hlt)]; [done|]. cbn in Hlt.
    by rewrite (proj2 (Z.ltb_lt _ _)) by lia. }
  rewrite (Verify_redis_done (redis_later d σ) r e) by done.
  specialize (IH (redis_later d σ) Hf Hdb).
  destruct (serve_timed (redis_later d σ) (map (fun d => (d, r)) ds)) as [σ2 css].
  cbn in IH |- *. rewrite IH; [done|].
  destruct Ht as [Hn|(t & Ht & Hlt)]; [by left|].
  right. exists t. split; [done|]. cbn in Hlt |- *. lia.
Qed.

(** X15. The same request with a key that the distributed store holds no
    live record of, served on a service that answers, first after a delay
    [d0] and then again after each of the delays [ds]: when the delays
    [ds] together are shorter than the expiry (or the expiry is zero), the
    first request executes the wrapped handler and every other one is sent
    to the restorer. *)
Theorem redis_sequential_idempotence (s : Redis.redisStorage) (r : Request)
    (d0 : Z) (ds : list Z) :
  Redis.fault (Redis.client s) = None ->
  valid_expiration (Redis.expiry s) ->
  request_key r <> "" ->
  Redis.live (Redis.client s) (Redis.keyPrefix s +:+ request_key r) = None ->
  0 <= d0 ->
  Forall (fun d => 0 <= d) ds ->
  (0 < Redis.expiry s -> sum_delays ds < Redis.expiry s) ->
  (serve_timed s ((d0, r) :: map (fun d => (d, r)) ds)).2
    = handled_calls r :: replicate (length ds) (restored_calls r)
  /\ count is_handler (concat (serve_timed s ((d0, r) :: map (fun d => (d, r)) ds)).2)
     = 1%nat
  /\ count is_restorer (concat (serve_timed s ((d0, r) :: map (fun d => (d, r)) ds)).2)
     = length ds.
Proof.
  intros Hf Hv Hkey Hl Hd0 Hds Hsum.
  assert (Hcalls : (serve_timed s ((d0, r) :: map (fun d => (d, r)) ds)).2
                   = handled_calls r :: replicate (length ds) (restored_calls r)).
  { cbn [serve_timed].
    rewrite (Verify_redis_fresh (redis_later d0 s) r); try done.
    2: { by apply live_elapse_None. }
    set (σ1 := Redis.with_client _ _).
    pose proof (serve_timed_done r
                  {| Redis.value := "done";
                     Redis.expireAt :=
                       if 0 <? Redis.expiry s
                       then Some (Redis.now (Redis.client s) + d0 + Redis.expiry s)
                       else None |} ds Hkey eq_refl Hds σ1) as Hrest.
    destruct (serve_timed σ1 (map (fun d => (d, r)) ds)) as [σ2 css].
    cbn [snd] in *. rewrite Hrest; [done|done| |].
    - subst σ1. cbn. by rewrite lookup_insert_eq.
    - subst σ1. cbn. destruct (0 <? Redis.expiry s) eqn:HE; [|by left].
      apply Z.ltb_lt in HE. right. eexists. split; [done|].
      specialize (Hsum HE). lia. }
  rewrite Hcalls. split; [done|].
  rewrite !count_concat_cons, !count_concat_replicate. cbn. lia.
Qed.

Lemma redis_sequential_idempotence_witness :
  let r := request_with_key "deadbeef" in
  (serve_timed redis0 ((5, r) :: map (fun d => (d, r)) [100; 0; 899])).2
    = handled_calls r :: replicate (length [100; 0; 899]) (restored_calls r)
  /\ count is_handler
       (concat (serve_timed redis0 ((5, r) :: map (fun d => (d, r)) [100; 0; 899])).2)
     = 1%nat
  /\ count is_restorer
       (concat (serve_timed redis0 ((5, r) :: map (fun d => (d, r)) [100; 0; 899])).2)
     = length [100; 0; 899].
Proof.
  apply (redis_sequential_idempotence redis0 (request_with_key "deadbeef") 5
           [100; 0; 899]).
  - reflexivity.
  - left. vm_compute. discriminate.
  - vm_compute. discriminate.
  - vm_compute. reflexivity.
  - lia.
  - repeat constructor; lia.
  - intros _. vm_compute. reflexivity.
Defined.

(** X16. With a positive expiry, a request with a key whose record has
    expired executes the wrapped handler again: of two requests with the
    same key, the second one arriving when the expiry or more has passed
    since the first, both execute the handler. *)
Theorem redis_expired_key_runs_again (s : Redis.redisStorage) (r r' : Request)
    (d0 d : Z) :
  Redis.fault (Redis.client s) = None ->
  0 < Redis.expiry s ->
  request_key r <> "" ->
  request_key r' = request_key r ->
  Redis.live (Redis.client s) (Redis.keyPrefix s +:+ request_key r) = None ->
  0 <= d0 ->
  Redis.expiry s <= d ->
  (serve_timed s [(d0, r); (d, r')]).2 = [handled_calls r; handled_calls r'].
Proof.
  intros Hf HE Hkey Hkey' Hl Hd0 Hd.
  assert (Hv : valid_expiration (Redis.expiry s)) by (left; lia).
  cbn [serve_timed].
  rewrite (Verify_redis_fresh (redis_later d0 s) r); try done.
  2: { by apply live_elapse_None. }
  rewrite Verify_redis_fresh; try done.
  - by rewrite Hkey'.
  - cbn. rewrite Hkey'. unfold Redis.live. cbn. rewrite lookup_insert_eq. cbn.
    rewrite (proj2 (Z.ltb_lt 0 (Redis.expiry s))) by lia.
    by rewrite (proj2 (Z.ltb_ge _ _)) by lia.
Qed.

Lemma redis_expired_key_runs_again_witness :
  let r := request_with_key "deadbeef" in
  (serve_timed redis0 [(0, r); (1000, r)]).2 = [handled_calls r; handled_calls r].
Proof.
  apply (redis_expired_key_runs_again redis0 (request_with_key "deadbeef")
           (request_with_key "deadbeef") 0 1000).
  - reflexivity.
  - vm_compute. reflexivity.
  - vm_compute. discriminate.
  - reflexivity.
  - vm_compute. reflexivity.
  - lia.
  - vm_compute. discriminate.
Defined.

Lemma Verify_redis_in_process (s : Redis.redisStorage) (r : Request) (e : Redis.entry) :
  Redis.fault (Redis.client s) = None ->
  request_key r <> "" ->
  Redis.live (Redis.client s) (Redis.keyPrefix s +:+ request_key r) = Some e ->
  Redis.value e = "in-process" ->
  Verify (New Redis.store) s r =
  (s, [StorageGet (request_key r);
       ErrResponder (errorString "request already in progress" []) StatusConflict r]).
Proof.
  intros Hf Hkey Hl Hv. unfold Verify. fold (request_key r).
  rewrite bool_decide_eq_false_2 by done.
  cbn [storage Get Add Complete Redis.store].
  rewrite redis_Get_up by done. rewrite Hl, Hv. done.
Qed.

(** X17. A key that was claimed on the distributed store and never
    completed, as when the process stops during the handler: a request
    with that key is answered 409 Conflict as long as the record lives,
    and once the expiry has passed it executes the wrapped handler.  With
    an expiry of zero the key is held for good. *)
Theorem redis_stuck_key_recovers (s : Redis.redisStorage) (r : Request) (d : Z) :
  let s1 := (Redis.Add s (request_key r)).1 in
  Redis.fault (Redis.client s) = None ->
  valid_expiration (Redis.expiry s) ->
  request_key r <> "" ->
  Redis.live (Redis.client s) (Redis.keyPrefix s +:+ request_key r) = None ->
  0 <= d ->
  (Verify (New Redis.store) (redis_later d s1) r).2 =
  if alive (Redis.expiry s) d
  then [StorageGet (request_key r);
        ErrResponder (errorString "request already in progress" []) StatusConflict r]
  else handled_calls r.
Proof.
  intros s1 Hf Hv Hkey Hl Hd.
  assert (Hs1 : s1 = Redis.with_client s
            (Redis.store_entry (Redis.client s) (Redis.keyPrefix s +:+ request_key r)
               {| Redis.value := "in-process";
                  Redis.expireAt :=
                    if 0 <? Redis.expiry s
                    then Some (Redis.now (Redis.client s) + Redis.expiry s)
                    else None |})).
  { subst s1. by rewrite redis_Add_fresh. }
  assert (Hlive : Redis.live (Redis.client (redis_later d s1))
                    (Redis.keyPrefix s +:+ request_key r) =
                  if alive (Redis.expiry s) d
                  then Some {| Redis.value := "in-process";
                               Redis.expireAt :=
                                 if 0 <? Redis.expiry s
                                 then Some (Redis.now (Redis.client s) + Redis.expiry s)
                                 else None |}
                  else None).
  { rewrite Hs1. cbn. rewrite live_later. cbn. unfold alive.
    destruct (0 <? Redis.expiry s); cbn; [|done]. by rewrite ltb_shift. }
  destruct (alive (Redis.expiry s) d) eqn:Ha.
  - erewrite Verify_redis_in_process; [done| | | |].
    + by rewrite Hs1.
    + done.
    + replace (Redis.keyPrefix (redis_later d s1)) with (Redis.keyPrefix s)
        by (by rewrite Hs1).
      exact Hlive.
    + done.
  - rewrite Verify_redis_fresh; [done| | | |].
    + by rewrite Hs1.
    + by rewrite Hs1.
    + done.
    + replace (Redis.keyPrefix (redis_later d s1)) with (Redis.keyPrefix s)
        by (by rewrite Hs1).
      exact Hlive.
Qed.

Lemma redis_stuck_key_recovers_witness :
  let r := request_with_key "deadbeef" in
  (Verify (New Redis.store) (redis_later 1000 (Redis.Add redis0 (request_key r)).1) r).2 =
  if alive (Redis.expiry redis0) 1000
  then [StorageGet (request_key r);
        ErrResponder (errorString "request already in progress" []) StatusConflict r]
  else handled_calls r.
Proof.
  apply (redis_stuck_key_recovers redis0 (request_with_key "deadbeef") 1000).
  - reflexivity.
  - left. vm_compute. discriminate.
  - vm_compute. discriminate.
  - vm_compute. reflexivity.
  - lia.
Defined.

(** X18. The distributed store takes every stored value other than
    [in-process] for a completed request: a request with a key under
    which the service holds such a value, whoever wrote it, is sent to the
    restorer; the wrapped handler is not executed and the store stays as
    it was. *)
Theorem redis_other_value_is_completed (s : Redis.redisStorage) (r : Request)
    (e : Redis.entry) :
  Redis.fault (Redis.client s) = None ->
  request_key r <> "" ->
  Redis.live (Redis.client s) (Redis.keyPrefix s +:+ request_key r) = Some e ->
  Redis.value e <> "in-process" ->
  (Redis.Get s (request_key r)).2 = (Some completed, None)
  /\ Verify (New Redis.store) s r = (s, restored_calls r).
Proof.
  intros Hf Hkey Hl Hv.
  assert (HG : Redis.Get s (request_key r) = (s, (Some completed, None))).
  { rewrite redis_Get_up by done. rewrite Hl.
    by rewrite bool_decide_eq_false_2. }
  split; [by rewrite HG|].
  unfold Verify. fold (request_key r).
  rewrite bool_decide_eq_false_2 by done.
  cbn [storage Get Add Complete Redis.store]. by rewrite HG.
Qed.

Lemma redis_other_value_is_completed_witness :
  let s := Redis.with_client redis0
             (Redis.store_entry service0 "idemp:deadbeef"
                {| Redis.value := "42"; Redis.expireAt := None |}) in
  (Redis.Get s (request_key (request_with_key "deadbeef"))).2 = (Some completed, None)
  /\ Verify (New Redis.store) s (request_with_key "deadbeef")
     = (s, restored_calls (request_with_key "deadbeef")).
Proof.
  apply (redis_other_value_is_completed
           (Redis.with_client redis0
              (Redis.store_entry service0 "idemp:deadbeef"
                 {| Redis.value := "42"; Redis.expireAt := None |}))
           (request_with_key "deadbeef")
           {| Redis.value := "42"; Redis.expireAt := None |}).
  - reflexivity.
  - vm_compute. discriminate.
  - vm_compute. reflexivity.
  - cbn. discriminate.
Defined.

(** ** The in-memory store: requests one after the other *)

Lemma serve_all_app {S : Type} (s : state S) (σ : S) (rs1 rs2 : list Request) :
  (serve_all s σ (rs1 ++ rs2)).1 = (serve_all s (serve_all s σ rs1).1 rs2).1.
Proof.
  revert σ. induction rs1 as [|r rs1 IH]; intros σ; [done|].
  cbn [app serve_all].
  destruct (Verify s σ r) as [σ1 cs]. specialize (IH σ1).
  destruct (serve_all s σ1 (rs1 ++ rs2)) as [σ2 css].
  destruct (serve_all s σ1 rs1) as [σ3 css3]. cbn in *.
  destruct (serve_all s σ3 rs2) as [σ4 css4]. by cbn in *.
Qed.

(** X19. With the in-memory store and requests served one after the
    other, the status of every key only moves forward, from absent to in
    process to completed: the store after some of the requests holds each
    key at a place that the store after more of them does not fall behind;
    a completed key stays completed. *)
Theorem memory_status_only_forward (m : Memory.memoryStorage) (rs1 rs2 : list Request)
    (k : string) :
  (rank (Memory.storage m !! k)
   <= rank (Memory.storage (serve_all (New Memory.store) m rs1).1 !! k))%nat
  /\ (rank (Memory.storage (serve_all (New Memory.store) m rs1).1 !! k)
      <= rank (Memory.storage (serve_all (New Memory.store) m (rs1 ++ rs2)).1 !! k))%nat.
Proof.
  split; [apply serve_all_memory_rank|].
  rewrite serve_all_app. apply serve_all_memory_rank.
Qed.

Lemma Verify_memory_in_process (m : Memory.memoryStorage) (r : Request) :
  request_key r <> "" ->
  Memory.storage m !! request_key r = Some in_process ->
  Verify (New Memory.store) m r =
  (m, [StorageGet (request_key r);
       ErrResponder (errorString "request already in progress" []) StatusConflict r]).
Proof.
  intros Hkey Hst. rewrite Verify_memory by done. fold (request_key r). by rewrite Hst.
Qed.

Lemma Verify_memory_keeps_in_process (m : Memory.memoryStorage) (r : Request)
    (key : string) :
  Memory.storage m !! key = Some in_process ->
  Memory.storage (Verify (New Memory.store) m r).1 !! key = Some in_process.
Proof.
  intros Hst.
  destruct (decide (request_key r = "")) as [He|Hne].
  { by rewrite Verify_memory_no_key. }
  rewrite Verify_memory by done. fold (request_key r).
  destruct (Memory.storage m !! request_key r) as [[[]]|] eqn:E; cbn; try done.
  assert (request_key r <> key) by congruence.
  by rewrite !lookup_insert_ne.
Qed.

(** X20. A key that the in-memory store holds in process and that no
    request completes, as after a handler that did not return, stays in
    process: among any requests served one after the other, every request
    with that key is answered 409 Conflict, and the wrapped handler is not
    executed for it again. *)
Theorem memory_in_process_key_stays (m : Memory.memoryStorage) (rs : list Request)
    (key : string) (i : nat) (r : Request) :
  key <> "" ->
  Memory.storage m !! key = Some in_process ->
  rs !! i = Some r ->
  request_key r = key ->
  (serve_all (New Memory.store) m rs).2 !! i =
    Some [StorageGet key;
          ErrResponder (errorString "request already in progress" []) StatusConflict r]
  /\ Memory.storage (serve_all (New Memory.store) m rs).1 !! key = Some in_process.
Proof.
  intros Hkey. revert m i. induction rs as [|r0 rs IH]; intros m i Hst Hi Hr; [done|].
  cbn [serve_all].
  pose proof (Verify_memory_keeps_in_process m r0 key Hst) as Hst1.
  destruct (Verify (New Memory.store) m r0) as [m1 cs] eqn:HV. cbn in Hst1.
  destruct i as [|i]; cbn in Hi.
  - injection Hi as ->. subst key.
    rewrite Verify_memory_in_process in HV by done. injection HV as <- <-.
    assert (Hrest : forall rs' m',
              Memory.storage m' !! request_key r = Some in_process ->
              Memory.storage (serve_all (New Memory.store) m' rs').1 !! request_key r
              = Some in_process).
    { induction rs' as [|r1 rs' IH']; intros m' Hm'; [done|].
      cbn [serve_all].
      pose proof (Verify_memory_keeps_in_process m' r1 _ Hm') as Hm1.
      destruct (Verify (New Memory.store) m' r1) as [m1' cs1]. cbn in Hm1.
      specialize (IH' m1' Hm1).
      by destruct (serve_all (New Memory.store) m1' rs'). }
    specialize (Hrest rs m Hst).
    by destruct (serve_all (New Memory.store) m rs).
  - specialize (IH m1 i Hst1 Hi Hr).
    by destruct (serve_all (New Memory.store) m1 rs).
Qed.

Lemma memory_in_process_key_stays_witness :
  let m := (Memory.Add Memory.NewMemoryStorage "deadbeef").1 in
  let rs := [request_with_key "cafe"; request_without_key; request_with_key "deadbeef"] in
  (serve_all (New Memory.store) m rs).2 !! 2%nat =
    Some [StorageGet "deadbeef";
          ErrResponder (errorString "request already in progress" []) StatusConflict
            (request_with_key "deadbeef")]
  /\ Memory.storage (serve_all (New Memory.store) m rs).1 !! "deadbeef" = Some in_process.
Proof.
  apply (memory_in_process_key_stays (Memory.Add Memory.NewMemoryStorage "deadbeef").1
           [request_with_key "cafe"; request_without_key; request_with_key "deadbeef"]
           "deadbeef" 2 (request_with_key "deadbeef")).
  - discriminate.
  - vm_compute. reflexivity.
  - reflexivity.
  - vm_compute. reflexivity.
Defined.
